(** * Incident Rescue Runbook: step-state tracking and navigation engine

    A shallow embedding of [src/IncidentRescueRunbook.tsx]: the step
    catalog [STEPS], the persisted status records ([loadState]), the
    component state with its event handlers ([setStatus], [onMarkDone],
    [onSkip], [resetAll], [exportAudit]), the derived views ([progress],
    [filtered]) and the effect that keeps the cursor on the filtered list.

    The component is a React function component. Its state cells
    ([search], [meta], [states], [currentIndex]) are the fields of
    [AppState]. An event handler is a function from the state of the render
    that created it to the state of the next render: what the handler reads
    is what its closure captured, and its updates are applied to that
    state. The effect on [[filtered, currentIndex]] is [reconcile], run
    after a render. The clock read by [nowIso] is an argument, and a thrown
    JavaScript exception is a [Throw] completion; an exception raised by a
    queued updater counts as the outcome of the event that queued it.

    The storage is passed explicitly: [loadState] takes what is stored,
    [saveState] gives what is stored after it has run.

    Left out, as nothing here reads them: the [copiedCmd] cell with the
    clipboard, and the download that [exportAudit] starts once the audit
    object is built. *)

From Stdlib Require Import ZArith List String Ascii Bool Lia SpecFloat Sorted.
Import ListNotations.

Local Open Scope string_scope.
Local Open Scope list_scope.
Local Open Scope Z_scope.

(** ** The JavaScript fragment the component uses *)

Module JS.

(** Numbers are IEEE 754 binary64 values. *)
Definition prec : Z := 53.
Definition emax : Z := 1024.
Definition number : Type := spec_float.

Definition NaN : number := S754_nan.
Definition of_Z (z : Z) : number := binary_normalize prec emax z 0 false.
Definition div (x y : number) : number := SFdiv prec emax x y.
Definition mul (x y : number) : number := SFmul prec emax x y.

(** [Math.round]: a number that is not finite, or is integral, is returned
    as it is; any other is rounded to the closest integer, the one closer
    to +infinity at a tie, and the sign of a zero result is the sign of the
    argument.  A finite value is [m * 2^e]; for [e < 0] the result is
    [floor (m * 2^e + 1/2)], computed on integers. *)
Definition Math_round (x : number) : number :=
  match x with
  | S754_finite s m e =>
      if 0 <=? e then x
      else
        let d := Z.shiftl 1 (- e) in
        let n := if s then Z.neg m else Z.pos m in
        let r := (2 * n + d) / (2 * d) in
        if r =? 0 then S754_zero s else of_Z r
  | _ => x
  end.

Set Warnings "-register-all".

(** Values: what [JSON.parse] can return, and [undefined]. An object is the
    list of its own properties, read at the first binding of a name. *)
Inductive value : Type :=
| VUndef
| VNull
| VBool (b : bool)
| VNum (x : number)
| VStr (s : string)
| VArr (elems : list value)
| VObj (props : list (string * value)).

Inductive exn : Type := TypeError | SyntaxError | SecurityError.

(** The outcome of evaluating an expression: a value, or a thrown exception. *)
Inductive completion (A : Type) : Type :=
| Normal (a : A)
| Throw (e : exn).
Arguments Normal {A} a.
Arguments Throw {A} e.

Definition bind {A B : Type} (c : completion A) (k : A -> completion B) : completion B :=
  match c with
  | Normal a => k a
  | Throw e => Throw e
  end.

Fixpoint lookup (k : string) (props : list (string * value)) : value :=
  match props with
  | [] => VUndef
  | (k', x) :: rest => if String.eqb k' k then x else lookup k rest
  end.

(** [o[k] = x] on a fresh copy of the object: an existing property keeps
    its place, a new one goes last. *)
Fixpoint set_prop (k : string) (x : value) (props : list (string * value))
  : list (string * value) :=
  match props with
  | [] => [(k, x)]
  | (k', y) :: rest =>
      if String.eqb k' k then (k, x) :: rest else (k', y) :: set_prop k x rest
  end.

(** [v?.k], for the property names the component reads ([id], [status],
    [doneAt]); no prototype defines them, so only an object can have one. *)
Definition opt_get (v : value) (k : string) : value :=
  match v with
  | VObj props => lookup k props
  | _ => VUndef
  end.

(** [v.k], for the same names: reading a property of [undefined] or [null]
    throws. *)
Definition get (v : value) (k : string) : completion value :=
  match v with
  | VUndef | VNull => Throw TypeError
  | _ => Normal (opt_get v k)
  end.

(** [v === s] for a string [s]. *)
Definition strict_eq_string (v : value) (s : string) : bool :=
  match v with
  | VStr t => String.eqb t s
  | _ => false
  end.

(** [v ?? d] *)
Definition nullish (v d : value) : value :=
  match v with
  | VUndef | VNull => d
  | _ => v
  end.

(** The properties [JSON.stringify] writes: the first binding of each name,
    unless its value is [undefined], with a copy of the value. *)
Definition copy_props (copy : value -> value)
  : list string -> list (string * value) -> list (string * value) :=
  fix go (seen : list string) (ps : list (string * value)) :=
    match ps with
    | [] => []
    | (k, x) :: rest =>
        if existsb (String.eqb k) seen then go seen rest
        else match x with
             | VUndef => go (k :: seen) rest
             | _ => (k, copy x) :: go (k :: seen) rest
             end
    end.

(** [JSON.parse(JSON.stringify(v))]: a property whose value is [undefined]
    is not written, an [undefined] array element is written as [null], a
    number that is not finite is written as [null], and minus zero is
    written as [0]. [undefined] itself has no text and stays as it is. *)
Fixpoint JSON_copy (v : value) : value :=
  match v with
  | VUndef => VUndef
  | VNull => VNull
  | VBool b => VBool b
  | VNum (S754_finite s m e) => VNum (S754_finite s m e)
  | VNum (S754_zero _) => VNum (S754_zero false)
  | VNum _ => VNull
  | VStr s => VStr s
  | VArr elems =>
      VArr (map (fun x => match x with
                          | VUndef => VNull
                          | _ => JSON_copy x
                          end) elems)
  | VObj props => VObj (copy_props JSON_copy [] props)
  end.

(** [l[i]] *)
Definition nth_Z {A : Type} (l : list A) (i : Z) : option A :=
  if i <? 0 then None else nth_error l (Z.to_nat i).

Definition at_index (l : list value) (i : Z) : value :=
  match nth_Z l i with
  | Some v => v
  | None => VUndef
  end.

(** [l.findIndex((x, i) => p x i)] *)
Fixpoint findIndex_from {A : Type} (p : A -> Z -> bool) (i : Z) (l : list A) : Z :=
  match l with
  | [] => -1
  | x :: rest => if p x i then i else findIndex_from p (i + 1) rest
  end.

Definition findIndex {A : Type} (p : A -> Z -> bool) (l : list A) : Z :=
  findIndex_from p 0 l.

(** [l.map(f)], [l.filter(p)] and [l.find(p)] for callbacks that can throw. *)
Fixpoint Array_map {A B : Type} (f : A -> completion B) (l : list A)
  : completion (list B) :=
  match l with
  | [] => Normal []
  | x :: rest =>
      bind (f x) (fun y => bind (Array_map f rest) (fun ys => Normal (y :: ys)))
  end.

Fixpoint Array_filter {A : Type} (p : A -> completion bool) (l : list A)
  : completion (list A) :=
  match l with
  | [] => Normal []
  | x :: rest =>
      bind (p x) (fun b =>
      bind (Array_filter p rest) (fun ys => Normal (if b then x :: ys else ys)))
  end.

Fixpoint Array_find (p : value -> completion bool) (l : list value)
  : completion value :=
  match l with
  | [] => Normal VUndef
  | x :: rest => bind (p x) (fun b => if b then Normal x else Array_find p rest)
  end.

(** Strings. A character stands for one code unit, so the development
    covers the strings whose code units are below 256; the catalog is ASCII. *)

(** [WhiteSpace] and [LineTerminator] code units below 256: TAB, LF, VT,
    FF, CR, SP and NBSP. *)
Definition is_white_space (c : ascii) : bool :=
  let n := nat_of_ascii c in
  (((9 <=? n) && (n <=? 13)) || (n =? 32) || (n =? 160))%nat.

Fixpoint trimStart (s : string) : string :=
  match s with
  | EmptyString => EmptyString
  | String c rest => if is_white_space c then trimStart rest else s
  end.

Fixpoint trimEnd (s : string) : string :=
  match s with
  | EmptyString => EmptyString
  | String c rest =>
      match trimEnd rest with
      | EmptyString => if is_white_space c then EmptyString else String c EmptyString
      | rest' => String c rest'
      end
  end.

Definition trim (s : string) : string := trimEnd (trimStart s).

(** Lower-case mapping of a code unit below 256: A-Z, and the Latin-1
    capitals U+00C0..U+00DE without the multiplication sign U+00D7. *)
Definition lower_unit (c : ascii) : ascii :=
  let n := nat_of_ascii c in
  if (((65 <=? n) && (n <=? 90))
      || ((192 <=? n) && (n <=? 222) && negb (n =? 215)))%nat
  then ascii_of_nat (n + 32) else c.

Fixpoint toLowerCase (s : string) : string :=
  match s with
  | EmptyString => EmptyString
  | String c rest => String (lower_unit c) (toLowerCase rest)
  end.

(** [s.includes(q)] *)
Fixpoint includes (s q : string) : bool :=
  String.prefix q s
  || match s with
     | EmptyString => false
     | String _ rest => includes rest q
     end.

(** [!s] for a string. *)
Definition is_empty (s : string) : bool :=
  match s with
  | EmptyString => true
  | _ => false
  end.

End JS.

Import JS.

Notation "x <- c ;; k" := (JS.bind c (fun x => k))
  (at level 61, c at next level, right associativity).

(** ** Types *)

Record CommandBlock : Type := {
  label : option string;
  cmd : string
}.

Record Link : Type := {
  link_label : string;
  href : string
}.

Inductive Category : Type :=
| Preparation | Triage | Containment | Forensics
| Eradication | Recovery | Hardening | PostIncident.

(** The string a category is at run time. *)
Definition Category_string (c : Category) : string :=
  match c with
  | Preparation => "Preparation"
  | Triage => "Triage"
  | Containment => "Containment"
  | Forensics => "Forensics"
  | Eradication => "Eradication"
  | Recovery => "Recovery"
  | Hardening => "Hardening"
  | PostIncident => "Post-Incident"
  end.

Record StepItem : Type := {
  id : string;
  title : string;
  category : Category;
  critical : option bool;
  details : string;
  commands : option (list CommandBlock);
  links : option (list Link)
}.

(** [StepState["status"]], the argument type of [setStatus]. *)
Inductive Status : Type := Todo | Done | Skipped.

Definition Status_string (s : Status) : string :=
  match s with
  | Todo => "todo"
  | Done => "done"
  | Skipped => "skipped"
  end.

(** A [StepState] is an object with the properties [id], [status] and
    [doneAt].  The records of a session come from [JSON.parse], which
    checks no type, so a record is a [value]. *)
Abbreviation StepState := value (only parsing).

Inductive Severity : Type := SEV1 | SEV2 | SEV3 | SEV4 | TBD.

Record IncidentMeta : Type := {
  name : string;
  severity : Severity;
  accountId : string;
  region : string;
  commander : string;
  scribe : string
}.

(** ** Seed steps *)
Definition STEPS : list StepItem :=
[
  {| id := "declare-incident";
     title := "Declare Incident, Assign Roles, Open War Room";
     category := Preparation;
     critical := Some true;
     details :=
       "Confirm incident scope and declare severity. Assign Incident Commander (IC), Scribe, Communications Lead. Open a dedicated chat/video bridge. Start timeline.";
     commands := Some
        [ {| label := Some "Create Slack channel (example)";
            cmd := "# incident-sev1-<short-id>" |} ];
     links := None |};
  {| id := "preserve-logs";
     title := "Preserve Logs & Evidence Bucket (WORM/Lock)";
     category := Preparation;
     critical := Some true;
     details :=
       "Ensure log sources are immutable. Enable/verify org CloudTrail and S3 Object Lock (governance/legal hold). Mirror logs to a dedicated evidence bucket with restricted access.";
     commands := Some
        [ {| label := Some "S3 Object Lock (example)";
            cmd := "aws s3api put-object-lock-configuration --bucket <EVIDENCE_BUCKET> --object-lock-configuration 'ObjectLockEnabled=Enabled,Rule={DefaultRetention={Mode=GOVERNANCE,Days=90}}'" |} ];
     links := Some
        [ {| link_label := "AWS CloudTrail";
            href := "https://docs.aws.amazon.com/awscloudtrail/latest/userguide/cloudtrail-user-guide.html" |};
         {| link_label := "S3 Object Lock";
            href := "https://docs.aws.amazon.com/AmazonS3/latest/userguide/object-lock.html" |} ] |};
  {| id := "change-freeze";
     title := "Change Freeze & Stakeholder Notifications";
     category := Preparation;
     critical := None;
     details :=
       "Announce temporary change freeze for impacted accounts/regions except emergency containment. Notify legal, security, exec sponsors as required by policy.";
     commands := None;
     links := None |};
  {| id := "scope-triage";
     title := "Scope/Triage: Identify Impacted Accounts, Regions, Assets";
     category := Triage;
     critical := Some true;
     details :=
       "Gather indicators of compromise (IoCs). Identify impacted accounts, regions, users, roles, instances, containers, data stores. Start asset list.";
     commands := None;
     links := None |};
  {| id := "review-guardduty";
     title := "Review GuardDuty / Security Hub / Detective";
     category := Triage;
     critical := None;
     details :=
       "Pull recent findings, pivot to related resources, and tag affected assets.";
     commands := Some
        [ {| label := None;
            cmd := "aws guardduty list-findings --detector-id <ID> --finding-criteria '{...}'" |};
         {| label := None;
            cmd := "aws securityhub get-findings --filters '{...}'" |} ];
     links := Some
        [ {| link_label := "AWS GuardDuty";
            href := "https://docs.aws.amazon.com/guardduty/latest/ug/what-is-guardduty.html" |};
         {| link_label := "AWS Detective";
            href := "https://docs.aws.amazon.com/detective/latest/adminguide/what-is.html" |} ] |};
  {| id := "review-cloudtrail";
     title := "Review CloudTrail & CloudTrail Lake Queries";
     category := Triage;
     critical := None;
     details :=
       "Hunt for anomalous API calls, new IAM users/keys, policy changes, AssumeRole spikes, unusual regions.";
     commands := Some
        [ {| label := None;
            cmd := "SELECT eventTime, eventName, userIdentity.sessionContext.sessionIssuer.userName, sourceIPAddress FROM cloudtrail WHERE eventTime > timestamp '2025-08-19' AND eventName IN ('CreateUser','CreateAccessKey','PutUserPolicy');" |} ];
     links := None |};
  {| id := "review-vpc-flows";
     title := "Review VPC Flow Logs & WAF/ALB Logs";
     category := Triage;
     critical := None;
     details :=
       "Identify C2 beacons, data exfil patterns, unusual egress, and blocked/allowed WAF requests.";
     commands := None;
     links := None |};
  {| id := "rotate-keys";
     title := "Rotate/Disable IAM Access Keys & Suspicious Credentials";
     category := Containment;
     critical := Some true;
     details :=
       "Immediately deactivate/rotate compromised keys and credentials for users, roles, workload identities, CI/CD, and third-party integrators.";
     commands := Some
        [ {| label := None;
            cmd := "aws iam update-access-key --user-name <USER> --access-key-id <KEYID> --status Inactive" |};
         {| label := None;
            cmd := "aws iam create-access-key --user-name <USER>" |} ];
     links := None |};
  {| id := "force-password-reset";
     title := "Force Password Resets & Require MFA";
     category := Containment;
     critical := None;
     details :=
       "Enforce password reset for console users. Enable/require MFA on root and all human users. For Identity Center (SSO), terminate sessions where supported.";
     commands := None;
     links := None |};
  {| id := "invalidate-sessions";
     title := "Invalidate/Terminate Active Sessions (where possible)";
     category := Containment;
     critical := None;
     details :=
       "Terminate federated/SSO sessions (if supported) and rotate underlying IdP secrets. Temporary STS creds cannot be revoked; block via policy/SCP.";
     commands := Some
        [ {| label := None;
            cmd := "aws iam set-default-policy-version --policy-arn <POLICY> --version-id vN (use explicit deny to block)" |} ];
     links := None |};
  {| id := "isolate-assets";
     title := "Quarantine/Isolate Compromised Assets";
     category := Containment;
     critical := None;
     details :=
       "Move instances/containers to quarantine security groups or isolated subnets (deny egress). For S3, enable Block Public Access; for RDS, restrict SGs; for EKS, cordon/drain nodes; for ECS, stop tasks.";
     commands := None;
     links := None |};
  {| id := "snapshot-evidence";
     title := "Snapshot Evidence (Disks/AMIs/Logs)";
     category := Forensics;
     critical := Some true;
     details :=
       "Create EBS snapshots/AMIs, export logs, and store hashes in evidence bucket. Maintain chain of custody. Avoid stopping instances unless required.";
     commands := Some
        [ {| label := None;
            cmd := "aws ec2 create-snapshot --volume-id <VOL> --description 'IR evidence <case>'" |};
         {| label := None;
            cmd := "aws ec2 create-image --instance-id <i-...> --name 'ir-ami-<case>' --no-reboot" |} ];
     links := None |};
  {| id := "collect-iocs";
     title := "Collect IoCs & Timeline";
     category := Forensics;
     critical := None;
     details :=
       "Document file hashes, IPs, domains, user agents, API patterns. Build minute-by-minute timeline in the incident log.";
     commands := None;
     links := None |};
  {| id := "remove-backdoors-iam";
     title := "Remove Backdoors: Rogue IAM Users/Keys/Roles/Policies/Trusts";
     category := Eradication;
     critical := None;
     details :=
       "Search for unauthorized principals, inline policies, access key proliferation, modified trust relationships, overly-broad permissions. Remove/disable and document.";
     commands := None;
     links := None |};
  {| id := "remove-backdoors-lambda";
     title := "Remove Backdoors: Lambda Triggers / EventBridge / SSM";
     category := Eradication;
     critical := None;
     details :=
       "Find suspicious Lambda triggers (S3, CloudWatch, EventBridge), automation scripts, SSM documents/run commands, CodeBuild webhooks, and disable/remove.";
     commands := None;
     links := None |};
  {| id := "remove-backdoors-infra";
     title := "Remove Backdoors: Launch Templates/AMIs/UserData/Containers";
     category := Eradication;
     critical := None;
     details :=
       "Audit Launch Templates, AMIs, EC2 User Data, EKS DaemonSets, ECS Task Definitions for persistence. Replace with clean, signed artifacts.";
     commands := None;
     links := None |};
  {| id := "rebuild-patch";
     title := "Rebuild/Patch from Known-Good Artifacts";
     category := Recovery;
     critical := None;
     details :=
       "Rebuild workloads from golden AMIs/containers, apply patches, rotate app/database credentials (Secrets Manager/Parameter Store), and validate integrity.";
     commands := None;
     links := None |};
  {| id := "monitor-heightened";
     title := "Heightened Monitoring & Gradual Re-Enablement";
     category := Recovery;
     critical := None;
     details :=
       "Keep quarantine until metrics/logs remain clean over a defined window. Add detections for observed IoCs. Slowly re-open egress if needed.";
     commands := None;
     links := None |};
  {| id := "controls-root-mfa";
     title := "Apply Controls: Root Account MFA & Break-Glass";
     category := Hardening;
     critical := None;
     details :=
       "Ensure root MFA enforced, store break-glass creds offline with strict procedure and alerts on use.";
     commands := None;
     links := None |};
  {| id := "controls-least-privilege";
     title := "Apply Controls: Least Privilege, Access Analyzer, SCP Guardrails";
     category := Hardening;
     critical := None;
     details :=
       "Use IAM Access Analyzer, reduce wildcards, enforce deny guardrails with SCPs across org, restrict regions, and disable unused services.";
     commands := None;
     links := None |};
  {| id := "controls-network";
     title := "Apply Controls: Network Egress, WAF, Private Endpoints";
     category := Hardening;
     critical := None;
     details :=
       "Egress allow-listing via NAT/Proxy, WAF managed rules + custom rules, VPC endpoints for control-plane APIs, Inspector/patch baselines.";
     commands := None;
     links := None |};
  {| id := "controls-logging";
     title := "Apply Controls: Central Logging, Retention, Detective Controls";
     category := Hardening;
     critical := None;
     details :=
       "Org CloudTrail (multi-region), Config, CloudWatch log aggregation, GuardDuty/Detective/Security Hub enabled org-wide with minimum retention.";
     commands := None;
     links := None |};
  {| id := "controls-secrets";
     title := "Apply Controls: Secrets Rotation & CI/CD Hygiene";
     category := Hardening;
     critical := None;
     details :=
       "Rotate all secrets via Secrets Manager; enforce OIDC for CI, scoped short-lived tokens, and artifact signing (SLSA attestations).";
     commands := None;
     links := None |};
  {| id := "reporting";
     title := "Post-Incident Report, Lessons Learned, Playbook Updates";
     category := PostIncident;
     critical := None;
     details :=
       "Within agreed SLA, publish a blameless PIR: root cause (if known), impact, timeline, controls added, detection gaps, and action items with owners/dates.";
     commands := None;
     links := None |};
  {| id := "notify-compliance";
     title := "Regulatory/Customer Notifications (if applicable)";
     category := PostIncident;
     critical := None;
     details :=
       "Coordinate with legal/privacy for required notifications (e.g., data breach). Track deadlines and evidence of compliance.";
     commands := None;
     links := None |}
].

(** [STEPS.map((s) => s.id)] *)
Definition identities (catalog : list StepItem) : list string := map id catalog.

(** ** Utilities *)

Definition STORAGE_KEY : string := "incident-rescue-progress-v1".

(** What [loadState] observes of the item stored under [STORAGE_KEY]:
    [localStorage.getItem] throws, or returns [null], or returns the empty
    string, or returns a non-empty text on which [JSON.parse] completes
    with [parsed]. *)
Inductive Blob : Type :=
| GetItemThrows (e : exn)
| NoItem
| EmptyItem
| Item (parsed : completion value).

(** [{ id, status: "todo" }] *)
Definition todoState (i : string) : StepState :=
  VObj [("id", VStr i); ("status", VStr "todo")].

(** [parsed.map(...)]: only an array has a [map] method to call. *)
Definition elements (parsed : value) : completion (list value) :=
  match parsed with
  | VArr l => Normal l
  | _ => Throw TypeError
  end.

(** [new Map(entries)] keeps, for a key, the value set last; [get] is used
    at string keys only. *)
Fixpoint Map_get (entries : list (value * value)) (k : string) : value :=
  match entries with
  | [] => VUndef
  | (k', v) :: rest =>
      match Map_get rest k with
      | VUndef => if strict_eq_string k' k then v else VUndef
      | later => later
      end
  end.

(** [(s) => [s.id, s]] *)
Definition entry_of (s : value) : completion (value * value) :=
  k <- get s "id" ;; Normal (k, s).

(** The body of the [try] block. *)
Definition loadState_try (stored : Blob) (stepIds : list string)
  : completion (list StepState) :=
  match stored with
  | GetItemThrows e => Throw e
  | NoItem | EmptyItem => Normal (map todoState stepIds)
  | Item outcome =>
      parsed <- outcome ;;
      elems <- elements parsed ;;
      mapped <- Array_map entry_of elems ;;
      Normal (map (fun i => nullish (Map_get mapped i) (todoState i)) stepIds)
  end.

Definition loadState (stored : Blob) (stepIds : list string) : list StepState :=
  match loadState_try stored stepIds with
  | Normal loaded => loaded
  | Throw _ => map todoState stepIds
  end.

(** [saveState]: what is stored under [STORAGE_KEY] once the text of the
    status list is written, as the next [loadState] finds it. The text of
    an array is not empty. *)
Definition saveState (state : list StepState) : Blob :=
  Item (Normal (JSON_copy (VArr state))).

(** ** Component *)

Record AppState : Type := {
  search : string;
  meta : IncidentMeta;
  states : list StepState;
  currentIndex : Z
}.

Definition setSearch (q : string) (st : AppState) : AppState :=
  {| search := q; meta := meta st; states := states st;
     currentIndex := currentIndex st |}.

Definition setMeta (m : IncidentMeta) (st : AppState) : AppState :=
  {| search := search st; meta := m; states := states st;
     currentIndex := currentIndex st |}.

Definition setStates (l : list StepState) (st : AppState) : AppState :=
  {| search := search st; meta := meta st; states := l;
     currentIndex := currentIndex st |}.

Definition setCurrentIndex (i : Z) (st : AppState) : AppState :=
  {| search := search st; meta := meta st; states := states st;
     currentIndex := i |}.

Definition initialMeta : IncidentMeta :=
  {| name := "Untitled Incident"; severity := TBD; accountId := "";
     region := ""; commander := ""; scribe := "" |}.

(** The state of the first render. *)
Definition initialState (catalog : list StepItem) (stored : Blob) : AppState :=
  {| search := ""; meta := initialMeta;
     states := loadState stored (identities catalog); currentIndex := 0 |}.

Definition is_done (s : StepState) : bool :=
  strict_eq_string (opt_get s "status") "done".

(** [states.filter((s) => s.status === "done").length]; reading [status]
    of [undefined] or [null] throws. *)
Definition doneCount (l : list StepState) : completion nat :=
  kept <- Array_filter (fun s => st <- get s "status" ;;
                                Normal (strict_eq_string st "done")) l ;;
  Normal (List.length kept).

Definition percent (done total : nat) : number :=
  Math_round (mul (div (of_Z (Z.of_nat done)) (of_Z (Z.of_nat total))) (of_Z 100)).

Definition progress (l : list StepState) : completion number :=
  done <- doneCount l ;;
  Normal (percent done (List.length l)).

(** [{ ...s, idx: i }] *)
Record IndexedStep : Type := {
  step : StepItem;
  idx : Z
}.

Fixpoint indexed_from (i : Z) (catalog : list StepItem) : list IndexedStep :=
  match catalog with
  | [] => []
  | s :: rest => {| step := s; idx := i |} :: indexed_from (i + 1) rest
  end.

(** [STEPS.map((s, i) => ({ ...s, idx: i }))] *)
Definition indexed (catalog : list StepItem) : list IndexedStep :=
  indexed_from 0 catalog.

Definition matches (q : string) (s : StepItem) : bool :=
  includes (toLowerCase (title s)) q
  || includes (toLowerCase (details s)) q
  || includes (toLowerCase (Category_string (category s))) q.

Definition filtered (catalog : list StepItem) (search : string) : list IndexedStep :=
  let q := toLowerCase (trim search) in
  if is_empty q then indexed catalog
  else filter (fun s => matches q (step s)) (indexed catalog).

(** [STEPS[currentIndex]], the step the page shows in its step card. *)
Definition current (catalog : list StepItem) (st : AppState) : option StepItem :=
  nth_Z catalog (currentIndex st).

(** The effect on [[filtered, currentIndex]]. *)
Definition reconcile (catalog : list StepItem) (st : AppState) : AppState :=
  let visible := filtered catalog (search st) in
  let currentId := option_map id (current catalog st) in
  let newIndex :=
    findIndex (fun s _ => match currentId with
                          | Some c => String.eqb (id (step s)) c
                          | None => false
                          end) visible in
  if newIndex >=? 0 then st
  else if 0 <? Z.of_nat (List.length visible) then
    match visible with
    | first :: _ => setCurrentIndex (idx first) st
    | [] => st
    end
  else st.

(** [status === "done" ? nowIso() : undefined] *)
Definition stamp (now : string) (status : Status) : value :=
  match status with
  | Done => VStr now
  | _ => VUndef
  end.

(** The updater [(s) => s.id === id ? { ...s, status, doneAt: ... } : s]. *)
Definition updateState (now i : string) (status : Status) (s : StepState)
  : completion StepState :=
  match s with
  | VUndef | VNull => Throw TypeError
  | VObj props =>
      if strict_eq_string (lookup "id" props) i
      then Normal (VObj (set_prop "doneAt" (stamp now status)
                           (set_prop "status" (VStr (Status_string status)) props)))
      else Normal s
  | _ => Normal s
  end.

Definition setStatus (now i : string) (status : Status) (st : AppState)
  : completion AppState :=
  next <- Array_map (updateState now i status) (states st) ;;
  Normal (setStates next st).

(** The argument of [onCheckedChange]. *)
Inductive CheckedState : Type :=
| CheckedBool (b : bool)
| CheckedString (s : string).

Definition Boolean (c : CheckedState) : bool :=
  match c with
  | CheckedBool b => b
  | CheckedString s => negb (is_empty s)
  end.

(** [current.id], thrown on when [current] is [undefined]. *)
Definition current_id (catalog : list StepItem) (st : AppState) : completion string :=
  match current catalog st with
  | Some c => Normal (id c)
  | None => Throw TypeError
  end.

Definition onMarkDone (catalog : list StepItem) (now : string)
  (checked : CheckedState) (st : AppState) : completion AppState :=
  let isChecked := Boolean checked in
  i <- current_id catalog st ;;
  st1 <- setStatus now i (if isChecked then Done else Todo) st ;;
  if isChecked then
    let nextIdx :=
      findIndex (fun _ i => (currentIndex st <? i)
                            && negb (is_done (at_index (states st) i))) catalog in
    if nextIdx >? -1 then Normal (setCurrentIndex nextIdx st1) else Normal st1
  else Normal st1.

Definition onSkip (catalog : list StepItem) (now : string) (st : AppState)
  : completion AppState :=
  i <- current_id catalog st ;;
  st1 <- setStatus now i Skipped st ;;
  let nextIdx := Z.min (Z.of_nat (List.length catalog) - 1) (currentIndex st + 1) in
  Normal (setCurrentIndex nextIdx st1).

(** The Back and Next buttons, and a click on a step of the list. *)
Definition onBack (st : AppState) : AppState :=
  setCurrentIndex (Z.max 0 (currentIndex st - 1)) st.

Definition onNext (catalog : list StepItem) (st : AppState) : AppState :=
  setCurrentIndex (Z.min (Z.of_nat (List.length catalog) - 1) (currentIndex st + 1)) st.

Definition resetAll (catalog : list StepItem) (st : AppState) : AppState :=
  setCurrentIndex 0 (setStates (map (fun s => todoState (id s)) catalog) st).

Record AuditStep : Type := {
  audit_id : string;
  audit_title : string;
  audit_category : Category;
  audit_status : value;
  audit_doneAt : value
}.

Record Audit : Type := {
  audit_meta : IncidentMeta;
  generatedAt : string;
  audit_steps : list AuditStep
}.

(** [states.find((st) => st.id === s.id)] *)
Definition findState (l : list StepState) (i : string) : completion value :=
  Array_find (fun st => k <- get st "id" ;; Normal (strict_eq_string k i)) l.

(** The object [audit] that [exportAudit] builds and hands to the download. *)
Definition exportAudit (catalog : list StepItem) (now : string) (st : AppState)
  : completion Audit :=
  entries <- Array_map (fun s =>
               r1 <- findState (states st) (id s) ;;
               r2 <- findState (states st) (id s) ;;
               Normal {| audit_id := id s;
                         audit_title := title s;
                         audit_category := category s;
                         audit_status := nullish (opt_get r1 "status") (VStr "todo");
                         audit_doneAt := nullish (opt_get r2 "doneAt") VNull |})
             catalog ;;
  Normal {| audit_meta := meta st; generatedAt := now; audit_steps := entries |}.

(** ** Sessions *)

(** The user's actions. *)
Inductive Event : Type :=
| SetSearch (q : string)
| SetMeta (m : IncidentMeta)
| SelectStep (i : Z)
| MarkDone (checked : CheckedState)
| Skip
| Back
| Next
| Reset.

Definition handle (catalog : list StepItem) (now : string) (ev : Event)
  (st : AppState) : completion AppState :=
  match ev with
  | SetSearch q => Normal (setSearch q st)
  | SetMeta m => Normal (setMeta m st)
  | SelectStep i => Normal (setCurrentIndex i st)
  | MarkDone checked => onMarkDone catalog now checked st
  | Skip => onSkip catalog now st
  | Back => Normal (onBack st)
  | Next => Normal (onNext catalog st)
  | Reset => Normal (resetAll catalog st)
  end.

(** The states of the page, from a first start that finds [stored]: the
    first render and its effect; then events, each followed by the effect;
    and restarts, which load what the effect on [[states]] has saved. *)
Inductive reachable (catalog : list StepItem) (stored : Blob) : AppState -> Prop :=
| reach_init : reachable catalog stored (reconcile catalog (initialState catalog stored))
| reach_step : forall st now ev st',
    reachable catalog stored st ->
    handle catalog now ev st = Normal st' ->
    reachable catalog stored (reconcile catalog st')
| reach_restart : forall st,
    reachable catalog stored st ->
    reachable catalog stored
      (reconcile catalog (initialState catalog (saveState (states st)))).

(** A run of events from a state, all handled at the same instant. *)
Fixpoint run (catalog : list StepItem) (now : string) (evs : list Event)
  (st : AppState) : completion AppState :=
  match evs with
  | [] => Normal st
  | ev :: rest =>
      st' <- handle catalog now ev st ;;
      run catalog now rest (reconcile catalog st')
  end.

(** ** Vocabulary of the statements *)

(** *** Status records *)

(** The identity a record carries, when it carries one. *)
Definition record_id (s : StepState) : option string :=
  match opt_get s "id" with
  | VStr i => Some i
  | _ => None
  end.

Definition status_of (s : StepState) : value := opt_get s "status".
Definition doneAt_of (s : StepState) : value := opt_get s "doneAt".

Definition status_at (l : list StepState) (j : Z) : value := status_of (at_index l j).
Definition doneAt_at (l : list StepState) (j : Z) : value := doneAt_of (at_index l j).

(** Pending, with no timestamp. *)
Definition pending (s : StepState) : Prop :=
  status_of s = VStr "todo" /\ doneAt_of s = VUndef.

(** A completion timestamp is present exactly on a completed record. *)
Definition timestamp_iff_done (s : StepState) : Prop :=
  status_of s = VStr "done" <-> doneAt_of s <> VUndef.

(** One record per catalog step, in catalog order, each an object that
    carries the identity of its step. *)
Definition aligned (catalog : list StepItem) (l : list StepState) : Prop :=
  map record_id l = map (fun s => Some (id s)) catalog.

(** *** Loading *)

(** The records of a stored item that [JSON.parse] turned into an array. *)
Definition records (stored : Blob) : list value :=
  match stored with
  | Item (Normal (VArr l)) => l
  | _ => []
  end.

(** What [JSON.stringify] and [JSON.parse] make of a property value and
    of an array element. *)
Definition copy_of_property (x : value) : value :=
  match x with
  | VUndef => VUndef
  | _ => JSON_copy x
  end.

Definition copy_of_element (x : value) : value :=
  match x with
  | VUndef => VNull
  | _ => JSON_copy x
  end.

(** Nothing usable is stored: no item, an empty one, or a failed read or parse. *)
Inductive nothing_stored : Blob -> Prop :=
| ns_throws : forall e, nothing_stored (GetItemThrows e)
| ns_none : nothing_stored NoItem
| ns_empty : nothing_stored EmptyItem
| ns_syntax : forall e, nothing_stored (Item (Throw e)).

(** *** Status transitions *)

(** The record the updater of [setStatus] returns where it does not throw. *)
Definition updated (now i : string) (status : Status) (s : StepState) : StepState :=
  match updateState now i status s with
  | Normal r => r
  | Throw _ => s
  end.

(** Step [j] follows the cursor [cur] and is not completed in [l]. *)
Definition incomplete_after (catalog : list StepItem) (l : list StepState)
  (cur j : Z) : Prop :=
  cur < j < Z.of_nat (List.length catalog) /\ status_at l j <> VStr "done".

(** *** Filter and cursor *)

(** [q] occurs in [s]. *)
Definition occurs_in (q s : string) : Prop :=
  exists before after, s = (before ++ q ++ after)%string.

(** Only white space, or nothing. *)
Fixpoint blank (s : string) : bool :=
  match s with
  | EmptyString => true
  | String c rest => is_white_space c && blank rest
  end.

(** The step under the cursor is one of the filtered steps. *)
Definition cursor_visible (catalog : list StepItem) (st : AppState) : Prop :=
  exists c f, current catalog st = Some c
              /\ In f (filtered catalog (search st))
              /\ id (step f) = id c.

(** The match as the specification words it: against the lowered query,
    which is not trimmed. *)
Definition matches_untrimmed (query : string) (s : StepItem) : bool :=
  matches (toLowerCase query) s.

(** *** Progress *)

(** The number of completed records. *)
Definition count_done (l : list StepState) : nat := List.length (filter is_done l).

(** [n / d] rounded to the nearest integer, a tie going up. *)
Definition round_half_up (n d : Z) : Z := (2 * n + d) / (2 * d).

(** The same number, bit for bit. *)
Definition number_same (x y : number) : bool :=
  match x, y with
  | S754_zero s, S754_zero t => Bool.eqb s t
  | S754_infinity s, S754_infinity t => Bool.eqb s t
  | S754_nan, S754_nan => true
  | S754_finite s m e, S754_finite t n f => Bool.eqb s t && Pos.eqb m n && Z.eqb e f
  | _, _ => false
  end.

(** [percent] is the rounded exact percentage at every count of a catalog
    of [total] steps. *)
Definition percent_exact (total : nat) : bool :=
  forallb (fun done =>
             number_same (percent done total)
               (of_Z (round_half_up (100 * Z.of_nat done) (Z.of_nat total))))
          (seq 0 (S total)).

(** *** The audit *)

(** The audit entry of a step whose status record is [r]. *)
Definition audit_entry (c : StepItem) (r : StepState) : AuditStep :=
  {| audit_id := id c;
     audit_title := title c;
     audit_category := category c;
     audit_status := nullish (status_of r) (VStr "todo");
     audit_doneAt := nullish (doneAt_of r) VNull |}.

(** The audit entry of a pending step. *)
Definition pending_entry (c : StepItem) : AuditStep :=
  {| audit_id := id c;
     audit_title := title c;
     audit_category := category c;
     audit_status := VStr "todo";
     audit_doneAt := VNull |}.

(** ** The rest of the page *)

(** [states.find((s) => s.id === current.id)!], the record the step card
    reads its checkbox from. *)
Definition currentState (catalog : list StepItem) (st : AppState)
  : completion value :=
  i <- current_id catalog st ;;
  findState (states st) i.

(** [filtered.some((f) => f.id === s.id)] for the step at index [i]: the
    list of steps shows a button for it. *)
Definition listed (catalog : list StepItem) (st : AppState) (i : Z) : bool :=
  match nth_Z catalog i with
  | Some s => existsb (fun f => String.eqb (id (step f)) (id s))
                      (filtered catalog (search st))
  | None => false
  end.

(** The events the rendered page can raise: a step is selected through its
    button in the list; every other control is always there. *)
Definition offered (catalog : list StepItem) (st : AppState) (ev : Event) : bool :=
  match ev with
  | SelectStep i => listed catalog st i
  | _ => true
  end.

(** The states of the page when every event comes from a control the page
    shows. *)
Inductive session (catalog : list StepItem) (stored : Blob) : AppState -> Prop :=
| session_init : session catalog stored (reconcile catalog (initialState catalog stored))
| session_step : forall st now ev st',
    session catalog stored st ->
    offered catalog st ev = true ->
    handle catalog now ev st = Normal st' ->
    session catalog stored (reconcile catalog st')
| session_restart : forall st,
    session catalog stored st ->
    session catalog stored
      (reconcile catalog (initialState catalog (saveState (states st)))).

(** The events that browse: they call neither [setStates] nor [setStatus]. *)
Definition browses (ev : Event) : bool :=
  match ev with
  | SetSearch _ | SetMeta _ | SelectStep _ | Back | Next => true
  | MarkDone _ | Skip | Reset => false
  end.

(** [s.replace(/\s+/g, r)]: every maximal run of white space becomes one
    [r]; [in_run] tells that the character before was white space. *)
Fixpoint replace_white_space (r : string) (in_run : bool) (s : string) : string :=
  match s with
  | EmptyString => EmptyString
  | String c rest =>
      if is_white_space c
      then if in_run then replace_white_space r true rest
           else (r ++ replace_white_space r true rest)%string
      else String c (replace_white_space r false rest)
  end.

(** [a.download] in [exportAudit]. *)
Definition download_name (m : IncidentMeta) : string :=
  ("incident-audit-" ++ replace_white_space "-" false (name m) ++ ".json")%string.

(** No character of [s] is white space. *)
Fixpoint no_white_space (s : string) : bool :=
  match s with
  | EmptyString => true
  | String c rest => negb (is_white_space c) && no_white_space rest
  end.

(** The query as the filter uses it. *)
Definition normalized (query : string) : string := toLowerCase (trim query).

(** Neither [undefined] nor [null]. *)
Definition is_nullish (v : value) : bool :=
  match v with
  | VUndef | VNull => true
  | _ => false
  end.

(** The first [k] steps are done, stamped [now], the others are todo, no
    query is typed and the cursor is on step [k], or on the last step when
    there is no step [k]. *)
Definition walked (catalog : list StepItem) (now : string) (k : nat)
  (st : AppState) : Prop :=
  blank (search st) = true
  /\ aligned catalog (states st)
  /\ currentIndex st = Z.min (Z.of_nat k) (Z.of_nat (List.length catalog) - 1)
  /\ (forall j, 0 <= j < Z.of_nat k ->
                status_at (states st) j = VStr "done"
                /\ doneAt_at (states st) j = VStr now)
  /\ (forall j, Z.of_nat k <= j < Z.of_nat (List.length catalog) ->
                status_at (states st) j = VStr "todo").

(** The percentage [progress] shows, when it is an integer from 0 to 100. *)
Definition shows_percent (l : list StepState) (p : Z) : Prop :=
  progress l = Normal (of_Z p) /\ 0 <= p <= 100.

(** ** Sample data *)

Definition instant : string := "2025-08-19T10:00:00.000Z".

(** A session that starts with nothing stored. *)
Definition first_run : AppState := initialState STEPS NoItem.

Definition plain_step (i : string) : StepItem :=
  {| id := i; title := i; category := Triage; critical := None;
     details := i; commands := None; links := None |}.

Definition doneState (i when : string) : StepState :=
  VObj [("id", VStr i); ("status", VStr "done"); ("doneAt", VStr when)].

(** Steps A and B pending, C completed, the cursor on A. *)
Definition three_steps : list StepItem :=
  [plain_step "A"; plain_step "B"; plain_step "C"].

Definition last_completed : AppState :=
  {| search := ""; meta := initialMeta;
     states := [todoState "A"; todoState "B"; doneState "C" instant];
     currentIndex := 0 |}.

(** A stored record that is pending and yet carries a timestamp. *)
Definition stray_timestamp : Blob :=
  Item (Normal (VArr [VObj [("id", VStr "declare-incident");
                            ("status", VStr "todo");
                            ("doneAt", VStr instant)]])).

(** * Proofs *)

(** An element of [map f l] is [f x] for an [x] of [l]. *)
Ltac in_map_inv H x := apply in_map_iff in H; destruct H as (x & <- & H).

(** ** Arrays and completions *)

Lemma Array_map_In {A B : Type} (f : A -> completion B) :
  forall l ys y, Array_map f l = Normal ys -> In y ys ->
                 exists x, In x l /\ f x = Normal y.
Proof.
  induction l as [|x rest IH]; simpl; intros ys y H Hin.
  - injection H as <-. contradiction.
  - destruct (f x) as [y0|e] eqn:Hx; simpl in H; [|discriminate].
    destruct (Array_map f rest) as [zs|e]; simpl in H; [|discriminate].
    injection H as <-. destruct Hin as [<-|Hin].
    + exists x. auto.
    + destruct (IH zs y eq_refl Hin) as (x' & Hx' & Hy). exists x'. auto.
Qed.

Lemma Array_map_total {A B : Type} (f : A -> completion B) (g : A -> B) :
  forall l, Forall (fun x => f x = Normal (g x)) l ->
            Array_map f l = Normal (map g l).
Proof.
  induction 1 as [|x rest Hx _ IH]; simpl.
  - reflexivity.
  - rewrite Hx. simpl. rewrite IH. reflexivity.
Qed.

Lemma strict_eq_string_true v s : strict_eq_string v s = true -> v = VStr s.
Proof.
  destruct v; simpl; try discriminate.
  intros H. apply String.eqb_eq in H. now subst.
Qed.

Lemma get_id_object v k :
  get v "id" = Normal (VStr k) -> exists props, v = VObj props /\ lookup "id" props = VStr k.
Proof.
  destruct v; simpl; try discriminate.
  intros H. injection H as H. eauto.
Qed.

(** ** Loading *)

Lemma pending_todoState i : pending (todoState i).
Proof. split; reflexivity. Qed.

Lemma Map_get_found entries k :
  Map_get entries k = VUndef
  \/ exists k', In (k', Map_get entries k) entries /\ strict_eq_string k' k = true.
Proof.
  induction entries as [|[k' v] rest IH]; simpl.
  - now left.
  - destruct (Map_get rest k) eqn:Hrest.
    1: { destruct (strict_eq_string k' k) eqn:Hk; [|now left].
         right. exists k'. auto. }
    all: destruct IH as [IH|(k0 & Hin & Hk)]; [discriminate|].
    all: right; exists k0; auto.
Qed.

Lemma Map_get_hit entries k :
  (forall k' v, In (k', v) entries -> v <> VUndef) ->
  forall k0 v0, In (k0, v0) entries -> strict_eq_string k0 k = true ->
  Map_get entries k <> VUndef.
Proof.
  induction entries as [|[k' v] rest IH]; simpl; intros Hdef k0 v0 Hin Hk.
  - contradiction.
  - destruct Hin as [Heq|Hin].
    + injection Heq as -> ->. rewrite Hk.
      destruct (Map_get rest k); try discriminate.
      apply (Hdef k0 v0). auto.
    + assert (Map_get rest k <> VUndef) as Hrest
        by (eapply IH; eauto).
      destruct (Map_get rest k); congruence.
Qed.

Lemma entry_of_inv s k v : entry_of s = Normal (k, v) -> v = s /\ get s "id" = Normal k.
Proof.
  unfold entry_of. destruct (get s "id") as [k0|e]; simpl; [|discriminate].
  intros H. injection H as -> ->. auto.
Qed.

Lemma Array_map_In_rev {A B : Type} (f : A -> completion B) :
  forall l ys x, Array_map f l = Normal ys -> In x l ->
                 exists y, In y ys /\ f x = Normal y.
Proof.
  induction l as [|x0 rest IH]; simpl; intros ys x H Hin.
  - contradiction.
  - destruct (f x0) as [y0|e] eqn:Hx; simpl in H; [|discriminate].
    destruct (Array_map f rest) as [zs|e]; simpl in H; [|discriminate].
    injection H as <-. destruct Hin as [<-|Hin].
    + exists y0. simpl. auto.
    + destruct (IH zs x eq_refl Hin) as (y & Hy & Hfx). exists y. simpl. auto.
Qed.

Lemma record_id_Some s i :
  record_id s = Some i -> exists props, s = VObj props /\ lookup "id" props = VStr i.
Proof.
  unfold record_id. destruct s; simpl; try discriminate.
  destruct (lookup "id" props) eqn:Hid; try discriminate.
  intros H. injection H as ->. eauto.
Qed.

(** What [loadState] puts at an identity from a parsed array: the stored
    record of that identity, or a fresh pending one when there is none. *)
Lemma loaded_record elems mapped i :
  Array_map entry_of elems = Normal mapped ->
  let r := nullish (Map_get mapped i) (todoState i) in
  (r = todoState i /\ forall s, In s elems -> record_id s <> Some i)
  \/ (In r elems /\ record_id r = Some i).
Proof.
  intros Hmap r. subst r.
  destruct (Map_get_found mapped i) as [Hu|(k & Hin & Hk)].
  - left. rewrite Hu. split; [reflexivity|].
    intros s Hs Hid.
    destruct (record_id_Some _ _ Hid) as (props & -> & Hprops).
    destruct (Array_map_In_rev _ _ _ _ Hmap Hs) as ([k v] & Hy & Hentry).
    apply entry_of_inv in Hentry. destruct Hentry as [-> Hget].
    simpl in Hget. rewrite Hprops in Hget. injection Hget as <-.
    revert Hu. eapply Map_get_hit; eauto.
    + intros k' v Hv ->.
      destruct (Array_map_In _ _ _ _ Hmap Hv) as (x & _ & Hx).
      apply entry_of_inv in Hx. destruct Hx as [<- Hx]. discriminate.
    + simpl. apply String.eqb_refl.
  - apply strict_eq_string_true in Hk. subst k.
    destruct (Array_map_In _ _ _ _ Hmap Hin) as (s & Hs & Hentry).
    apply entry_of_inv in Hentry. destruct Hentry as [Hv Hget].
    destruct (get_id_object _ _ Hget) as (props & Hobj & Hid).
    right. rewrite Hv, Hobj. simpl. split.
    + rewrite <- Hobj. assumption.
    + unfold record_id. simpl. now rewrite Hid.
Qed.

Lemma Forall2_map_r {A B : Type} (P : A -> B -> Prop) (f : A -> B) (l : list A) :
  (forall x, In x l -> P x (f x)) -> Forall2 P l (map f l).
Proof.
  induction l as [|x rest IH]; simpl; intros H; constructor; auto.
Qed.

(** The three ways [loadState] ends: the [catch] branch; the early [return]
    on a missing or empty item; the reconciliation of a parsed array. *)
Lemma loadState_cases stored ids :
  (exists e, loadState_try stored ids = Throw e
             /\ loadState stored ids = map todoState ids)
  \/ (records stored = []
      /\ loadState stored ids = map todoState ids)
  \/ (exists elems mapped,
         stored = Item (Normal (VArr elems))
         /\ Array_map entry_of elems = Normal mapped
         /\ loadState stored ids
            = map (fun i => nullish (Map_get mapped i) (todoState i)) ids).
Proof.
  unfold loadState.
  destruct stored as [e| | |[parsed|e]]; simpl; eauto.
  destruct parsed; simpl; eauto.
  destruct (Array_map entry_of elems) as [mapped|e] eqn:Hmap; simpl; eauto 8.
Qed.

Lemma loadState_shape stored ids :
  Forall2 (fun i r => (r = todoState i /\ pending r)
                      \/ (In r (records stored) /\ record_id r = Some i))
          ids (loadState stored ids).
Proof.
  destruct (loadState_cases stored ids)
    as [(e & _ & ->)|[(_ & ->)|(elems & mapped & -> & Hmap & ->)]].
  1, 2: apply Forall2_map_r; intros i _; left;
        split; [reflexivity | apply pending_todoState].
  apply Forall2_map_r. intros i _. simpl.
  destruct (loaded_record elems mapped i Hmap) as [[Hr _]|Hr].
  - left. rewrite Hr. split; [reflexivity | apply pending_todoState].
  - now right.
Qed.

(** When the stored text parses to an array of records, an identity that
    has a stored record gets a stored record, not a synthesized one. *)
Lemma loadState_keeps stored ids loaded :
  loadState_try stored ids = Normal loaded ->
  Forall2 (fun i r => (exists s, In s (records stored) /\ record_id s = Some i) ->
                      In r (records stored) /\ record_id r = Some i)
          ids (loadState stored ids).
Proof.
  intros Hread.
  destruct (loadState_cases stored ids)
    as [(e & He & _)|[(Hnone & ->)|(elems & mapped & -> & Hmap & ->)]].
  - congruence.
  - apply Forall2_map_r. intros i _ (s & Hs & _). rewrite Hnone in Hs. contradiction.
  - apply Forall2_map_r. intros i _ (s & Hs & Hid). simpl.
    destruct (loaded_record elems mapped i Hmap) as [[_ Hmiss]|Hr];
      [now destruct (Hmiss s Hs) | assumption].
Qed.

Lemma loadState_ids stored ids :
  map record_id (loadState stored ids) = map Some ids.
Proof.
  induction (loadState_shape stored ids) as [|i r ids' l' [[-> _]|[_ Hr]] _ IH];
    simpl.
  - reflexivity.
  - now rewrite IH.
  - now rewrite Hr, IH.
Qed.

Lemma loadState_nothing_stored stored ids :
  nothing_stored stored -> loadState stored ids = map todoState ids.
Proof. intros [e| | |e]; reflexivity. Qed.

Lemma loadState_aligned catalog stored :
  aligned catalog (loadState stored (identities catalog)).
Proof.
  unfold aligned, identities. rewrite loadState_ids. apply map_map.
Qed.

(** C2. Whatever is stored under the storage key (nothing, an empty text, a
    text that does not parse, a parsed value of any shape, records of
    identities the catalog lacks, no record for identities it has),
    [loadState] returns, without failing, one record per catalog identity,
    in catalog order: each is either the stored record of that identity or
    a synthesized pending record without timestamp; an identity with no
    stored record gets the synthesized one, and when the stored text is
    read as an array of records an identity with a stored record gets a
    stored one; a stored record of an identity outside the catalog is not
    in the result; and when the read or the parse fails, every record is
    the synthesized pending one. *)
Theorem loadState_reconciles (stored : Blob) (ids : list string) :
  let loaded := loadState stored ids in
  map record_id loaded = map Some ids
  /\ Forall2 (fun i r => (r = todoState i /\ pending r)
                         \/ (In r (records stored) /\ record_id r = Some i))
             ids loaded
  /\ Forall2 (fun i r => (forall s, In s (records stored) -> record_id s <> Some i) ->
                         r = todoState i)
             ids loaded
  /\ (forall read, loadState_try stored ids = Normal read ->
        read = loaded
        /\ Forall2 (fun i r =>
                      (exists s, In s (records stored) /\ record_id s = Some i) ->
                      In r (records stored) /\ record_id r = Some i)
                   ids loaded)
  /\ (forall r i, In r loaded -> record_id r = Some i -> In i ids)
  /\ (forall e, loadState_try stored ids = Throw e -> loaded = map todoState ids)
  /\ (nothing_stored stored -> loaded = map todoState ids).
Proof.
  intros loaded. subst loaded.
  pose proof (loadState_shape stored ids) as Hshape.
  pose proof (loadState_ids stored ids) as Hids.
  split; [exact Hids|]. split; [exact Hshape|]. split; [|split; [|split; [|split]]].
  - clear -Hshape. induction Hshape as [|i r ids' l' [[-> _]|[Hin Hr]] _ IH];
      constructor; auto.
    intros Hnone. now destruct (Hnone r Hin).
  - intros read Hread. split.
    + unfold loadState. now rewrite Hread.
    + now apply (loadState_keeps stored ids read).
  - intros r i Hin Hr.
    assert (In (Some i) (map record_id (loadState stored ids))) as Hsome
      by (rewrite <- Hr; now apply in_map).
    rewrite Hids in Hsome. apply in_map_iff in Hsome.
    destruct Hsome as (j & Hj & Hin'). now injection Hj as <-.
  - intros e He. unfold loadState. now rewrite He.
  - apply loadState_nothing_stored.
Qed.

(** ** Saving *)

Lemma copy_props_seen copy k : forall ps seen,
  In k seen -> lookup k (copy_props copy seen ps) = VUndef.
Proof.
  induction ps as [|[k' x] rest IH]; intros seen Hk; simpl; [reflexivity|].
  destruct (existsb (String.eqb k') seen) eqn:Hseen; [now apply IH|].
  assert (String.eqb k' k = false) as Hne.
  { apply String.eqb_neq. intros ->.
    assert (existsb (String.eqb k) seen = true) as Habs
      by (apply existsb_exists; exists k; split; [assumption | apply String.eqb_refl]).
    congruence. }
  destruct x; simpl; rewrite ?Hne; apply IH; simpl; auto.
Qed.

Lemma lookup_copy_props k : forall ps seen,
  ~ In k seen ->
  lookup k (copy_props JSON_copy seen ps) = copy_of_property (lookup k ps).
Proof.
  induction ps as [|[k' x] rest IH]; intros seen Hk; simpl; [reflexivity|].
  destruct (existsb (String.eqb k') seen) eqn:Hseen.
  - apply existsb_exists in Hseen. destruct Hseen as (k0 & Hin & Heq).
    apply String.eqb_eq in Heq. subst k0.
    assert (String.eqb k' k = false) as -> by (apply String.eqb_neq; congruence).
    now apply IH.
  - destruct (String.eqb k' k) eqn:Hkk.
    + apply String.eqb_eq in Hkk. subst k'.
      destruct x; simpl; rewrite ?String.eqb_refl; try reflexivity.
      apply copy_props_seen. simpl. auto.
    + assert (~ In k (k' :: seen)) as Hk'.
      { simpl. intros [->|Hin]; [|contradiction].
        now rewrite String.eqb_refl in Hkk. }
      destruct x; simpl; rewrite ?Hkk; now apply IH.
Qed.

Lemma opt_get_JSON_copy r k :
  opt_get (JSON_copy r) k = copy_of_property (opt_get r k).
Proof.
  destruct r as [| | |x| | |props]; try reflexivity.
  - now destruct x.
  - simpl. now apply lookup_copy_props.
Qed.

Lemma copy_of_property_string x s : copy_of_property x = VStr s <-> x = VStr s.
Proof.
  destruct x as [| | |n| | |]; simpl; split; try congruence.
  destruct n; discriminate.
Qed.

Lemma copy_of_property_defined x : copy_of_property x <> VUndef <-> x <> VUndef.
Proof.
  destruct x as [| | |n| | |]; simpl; split; try congruence; try discriminate.
  destruct n; discriminate.
Qed.

Lemma timestamp_JSON_copy r :
  timestamp_iff_done r -> timestamp_iff_done (JSON_copy r).
Proof.
  unfold timestamp_iff_done, status_of, doneAt_of.
  rewrite !opt_get_JSON_copy, copy_of_property_string, copy_of_property_defined.
  trivial.
Qed.

Lemma records_saveState l : records (saveState l) = map copy_of_element l.
Proof. reflexivity. Qed.

Lemma saveState_timestamps l :
  Forall timestamp_iff_done l -> Forall timestamp_iff_done (records (saveState l)).
Proof.
  rewrite records_saveState. intros H. apply Forall_forall. intros r Hr.
  in_map_inv Hr x. rewrite Forall_forall in H. specialize (H x Hr).
  destruct x; try (now apply timestamp_JSON_copy).
  split; [discriminate | intros Hd; now destruct Hd].
Qed.

(** ** Objects *)

Lemma lookup_set_prop_same k x props : lookup k (set_prop k x props) = x.
Proof.
  induction props as [|[k' y] rest IH]; simpl.
  - now rewrite String.eqb_refl.
  - destruct (String.eqb k' k) eqn:Hk; simpl.
    + now rewrite String.eqb_refl.
    + now rewrite Hk.
Qed.

Lemma lookup_set_prop_other k k' x props :
  k <> k' -> lookup k' (set_prop k x props) = lookup k' props.
Proof.
  intros Hne. induction props as [|[k0 y] rest IH]; simpl.
  - apply String.eqb_neq in Hne. now rewrite Hne.
  - destruct (String.eqb k0 k) eqn:Hk; simpl.
    + apply String.eqb_eq in Hk. subst k0.
      apply String.eqb_neq in Hne. now rewrite Hne.
    + destruct (String.eqb k0 k'); auto.
Qed.

(** ** The updater of [setStatus] *)

Lemma updateState_normal now i status s j :
  record_id s = Some j -> updateState now i status s = Normal (updated now i status s).
Proof.
  intros Hid. destruct (record_id_Some _ _ Hid) as (props & -> & _).
  unfold updated. simpl. now destruct (strict_eq_string (lookup "id" props) i).
Qed.

Lemma updated_other now i status s :
  record_id s <> Some i -> updated now i status s = s.
Proof.
  intros Hid. unfold updated. destruct s; simpl; try reflexivity.
  destruct (strict_eq_string (lookup "id" props) i) eqn:Hk; [|reflexivity].
  apply strict_eq_string_true in Hk. exfalso. apply Hid.
  unfold record_id. simpl. now rewrite Hk.
Qed.

Lemma updated_same now i status s :
  record_id s = Some i ->
  status_of (updated now i status s) = VStr (Status_string status)
  /\ doneAt_of (updated now i status s) = stamp now status.
Proof.
  intros Hid. destruct (record_id_Some _ _ Hid) as (props & -> & Hprops).
  unfold updated, status_of, doneAt_of. simpl. rewrite Hprops. simpl.
  rewrite String.eqb_refl. simpl. split.
  - rewrite lookup_set_prop_other by discriminate. apply lookup_set_prop_same.
  - apply lookup_set_prop_same.
Qed.

Lemma record_id_updated now i status s :
  record_id (updated now i status s) = record_id s.
Proof.
  unfold updated. destruct s; simpl; try reflexivity.
  destruct (strict_eq_string (lookup "id" props) i); [|reflexivity].
  unfold record_id. simpl.
  now rewrite !lookup_set_prop_other by discriminate.
Qed.

(** ** Indices *)

Lemma nth_Z_Some {A : Type} (l : list A) i x :
  nth_Z l i = Some x ->
  0 <= i < Z.of_nat (List.length l) /\ nth_error l (Z.to_nat i) = Some x.
Proof.
  unfold nth_Z. destruct (i <? 0) eqn:Hi; [discriminate|].
  apply Z.ltb_ge in Hi. intros H. split; [|assumption].
  assert (Z.to_nat i < List.length l)%nat
    by (apply nth_error_Some; congruence).
  lia.
Qed.

Lemma nth_Z_in_range {A : Type} (l : list A) i :
  0 <= i < Z.of_nat (List.length l) -> exists x, nth_Z l i = Some x.
Proof.
  intros Hi. unfold nth_Z.
  destruct (i <? 0) eqn:Hneg; [apply Z.ltb_lt in Hneg; lia|].
  destruct (nth_error l (Z.to_nat i)) as [x|] eqn:Hx; [eauto|].
  apply nth_error_None in Hx. lia.
Qed.

(** [findIndex] returns the first index whose element passes, or -1. *)
Lemma findIndex_from_spec {A : Type} (p : A -> Z -> bool) :
  forall l i0,
    let r := findIndex_from p i0 l in
    (r = -1 /\ forall n x, nth_error l n = Some x -> p x (i0 + Z.of_nat n) = false)
    \/ (i0 <= r < i0 + Z.of_nat (List.length l)
        /\ (exists x, nth_error l (Z.to_nat (r - i0)) = Some x /\ p x r = true)
        /\ forall n x, i0 + Z.of_nat n < r -> nth_error l n = Some x ->
                       p x (i0 + Z.of_nat n) = false).
Proof.
  induction l as [|x rest IH]; intros i0; simpl.
  - left. split; [reflexivity|]. intros [|n] y; discriminate.
  - destruct (p x i0) eqn:Hp.
    + right. split; [lia|]. split.
      * exists x. rewrite Z.sub_diag. simpl. auto.
      * intros n y Hn. lia.
    + destruct (IH (i0 + 1)) as [[Hr Hall]|(Hr & (y & Hy & Hpy) & Hall)].
      * left. split; [assumption|].
        intros [|n] y Hy; simpl in Hy.
        -- injection Hy as <-. now rewrite Z.add_0_r.
        -- replace (i0 + Z.of_nat (S n)) with (i0 + 1 + Z.of_nat n) by lia. eauto.
      * right. split; [lia|]. split.
        -- exists y. split; [|assumption].
           replace (Z.to_nat (findIndex_from p (i0 + 1) rest - i0))
             with (S (Z.to_nat (findIndex_from p (i0 + 1) rest - (i0 + 1)))) by lia.
           assumption.
        -- intros [|n] z Hlt Hz; simpl in Hz.
           ++ injection Hz as <-. now rewrite Z.add_0_r.
           ++ replace (i0 + Z.of_nat (S n)) with (i0 + 1 + Z.of_nat n) by lia.
              apply Hall; [lia|assumption].
Qed.

Lemma is_done_status s : is_done s = true <-> status_of s = VStr "done".
Proof.
  unfold is_done, status_of. split.
  - apply strict_eq_string_true.
  - intros ->. reflexivity.
Qed.

Lemma setStates_same st : setStates (states st) st = st.
Proof. now destruct st. Qed.

(** ** Aligned status lists *)

Section Aligned.

Variable catalog : list StepItem.
Variable l : list StepState.
Hypothesis Hal : aligned catalog l.

Lemma aligned_length : List.length l = List.length catalog.
Proof.
  pose proof (f_equal (@List.length _) Hal) as H.
  now rewrite !length_map in H.
Qed.

Lemma aligned_nth n c :
  nth_error catalog n = Some c ->
  exists s, nth_error l n = Some s /\ record_id s = Some (id c).
Proof.
  intros Hc.
  assert (nth_error (map record_id l) n = Some (Some (id c))) as Hn
    by (rewrite Hal, nth_error_map, Hc; reflexivity).
  rewrite nth_error_map in Hn.
  destruct (nth_error l n) as [s|]; simpl in Hn; [|discriminate].
  injection Hn as Hn. eauto.
Qed.

(** Every record is an object with an identity. *)
Lemma aligned_records : Forall (fun s => exists j, record_id s = Some j) l.
Proof.
  apply Forall_forall. intros s Hs.
  assert (In (record_id s) (map (fun c => Some (id c)) catalog)) as Hin
    by (rewrite <- Hal; now apply in_map).
  apply in_map_iff in Hin. destruct Hin as (c & Hc & _). eauto.
Qed.

Lemma aligned_updated now i status : aligned catalog (map (updated now i status) l).
Proof.
  unfold aligned. rewrite <- Hal, map_map.
  apply map_ext. intros s. apply record_id_updated.
Qed.

(** On aligned records the updater of [setStatus] does not throw. *)
Lemma Array_map_updateState now i status :
  Array_map (updateState now i status) l = Normal (map (updated now i status) l).
Proof.
  apply Array_map_total.
  eapply Forall_impl; [|exact aligned_records].
  intros s [j Hj]. eapply updateState_normal; eauto.
Qed.

(** The record under the cursor is the record of the current step. *)
Lemma record_at_cursor i c :
  nth_Z catalog i = Some c -> record_id (at_index l i) = Some (id c).
Proof.
  intros Hc. destruct (nth_Z_Some _ _ _ Hc) as [Hi Hn].
  destruct (aligned_nth _ _ Hn) as (s & Hs & Hid).
  unfold at_index, nth_Z.
  destruct (i <? 0) eqn:Hneg; [apply Z.ltb_lt in Hneg; lia|].
  now rewrite Hs.
Qed.

(** With unique identities, no other position holds a record of the
    current step. *)
Lemma record_elsewhere i j c :
  NoDup (identities catalog) ->
  nth_Z catalog i = Some c -> j <> i ->
  record_id (at_index l j) <> Some (id c).
Proof.
  intros Hnd Hc Hji Hid.
  destruct (nth_Z_Some _ _ _ Hc) as [Hi Hn].
  unfold at_index in Hid.
  destruct (nth_Z l j) as [s|] eqn:Hs; [|discriminate].
  destruct (nth_Z_Some _ _ _ Hs) as [Hj Hsn].
  assert (nth_error (map record_id l) (Z.to_nat j) = Some (Some (id c))) as Hm
    by (rewrite nth_error_map, Hsn; simpl; now rewrite Hid).
  rewrite Hal, nth_error_map in Hm.
  destruct (nth_error catalog (Z.to_nat j)) as [cj|] eqn:Hcj; [|discriminate].
  injection Hm as Hm.
  assert (Z.to_nat j = Z.to_nat i) as Heq.
  { eapply (proj1 (NoDup_nth_error (identities catalog)) Hnd).
    - unfold identities. rewrite length_map. apply nth_error_Some. congruence.
    - unfold identities. rewrite !nth_error_map, Hcj, Hn. simpl. now rewrite Hm. }
  lia.
Qed.

End Aligned.

Lemma setStatus_aligned catalog now i status st :
  aligned catalog (states st) ->
  setStatus now i status st
  = Normal (setStates (map (updated now i status) (states st)) st).
Proof.
  intros H. unfold setStatus.
  now rewrite (Array_map_updateState catalog _ H).
Qed.

Lemma at_index_updated now i status l j :
  at_index (map (updated now i status) l) j = updated now i status (at_index l j).
Proof.
  unfold at_index, nth_Z. destruct (j <? 0); [reflexivity|].
  rewrite nth_error_map. destruct (nth_error l (Z.to_nat j)); reflexivity.
Qed.

(** ** Strings *)

Lemma prefix_occurs q : forall s,
  String.prefix q s = true <-> exists after, s = (q ++ after)%string.
Proof.
  induction q as [|a q IH]; intros s.
  - split; [intros _; now exists s | intros _; now destruct s].
  - destruct s as [|b s]; simpl.
    + split; [discriminate | intros [after H]; discriminate].
    + destruct (Ascii.ascii_dec a b) as [<-|Hne].
      * rewrite IH. split; intros [after H]; exists after.
        -- now rewrite H.
        -- now injection H.
      * split; [discriminate|]. intros [after H]. injection H as H _. congruence.
Qed.

Lemma includes_occurs q : forall s, includes s q = true <-> occurs_in q s.
Proof.
  unfold occurs_in. induction s as [|a s IH]; cbn [includes].
  - rewrite orb_false_r, prefix_occurs. split.
    + intros [after H]. exists EmptyString, after. assumption.
    + intros ([|b before] & after & H); [eauto | discriminate].
  - rewrite orb_true_iff, prefix_occurs, IH. split.
    + intros [[after H]|(before & after & H)].
      * exists EmptyString, after. assumption.
      * exists (String a before), after. simpl. now rewrite H.
    + intros ([|b before] & after & H).
      * left. eauto.
      * right. simpl in H. injection H as _ H. eauto.
Qed.

Lemma includes_empty s : includes s "" = true.
Proof. apply includes_occurs. exists EmptyString, s. reflexivity. Qed.

Lemma trimStart_blank s : blank s = true -> trimStart s = "".
Proof.
  induction s as [|c s IH]; simpl; [reflexivity|].
  intros H. apply andb_prop in H. destruct H as [-> H]. auto.
Qed.

Lemma trim_blank s : blank s = true -> trim s = "".
Proof. intros H. unfold trim. now rewrite trimStart_blank. Qed.

Lemma is_empty_true s : is_empty s = true <-> s = "".
Proof. destruct s; simpl; split; congruence. Qed.

(** ** The filtered list *)

Lemma indexed_from_steps catalog : forall i, map step (indexed_from i catalog) = catalog.
Proof. induction catalog as [|s rest IH]; intros i; simpl; [|rewrite IH]; reflexivity. Qed.

Lemma filter_steps (p : StepItem -> bool) catalog : forall i,
  map step (filter (fun f => p (step f)) (indexed_from i catalog)) = filter p catalog.
Proof.
  induction catalog as [|s rest IH]; intros i; simpl; [reflexivity|].
  destruct (p s); simpl; now rewrite IH.
Qed.

Lemma indexed_from_position catalog : forall i f,
  In f (indexed_from i catalog) ->
  i <= idx f /\ nth_error catalog (Z.to_nat (idx f - i)) = Some (step f).
Proof.
  induction catalog as [|s rest IH]; intros i f; simpl; [contradiction|].
  intros [<-|Hin]; simpl.
  - rewrite Z.sub_diag. split; [lia | reflexivity].
  - destruct (IH _ _ Hin) as [Hle Hn]. split; [lia|].
    replace (Z.to_nat (idx f - i)) with (S (Z.to_nat (idx f - (i + 1)))) by lia.
    assumption.
Qed.

Lemma indexed_from_sorted catalog : forall i,
  StronglySorted Z.lt (map idx (indexed_from i catalog)).
Proof.
  induction catalog as [|s rest IH]; intros i; simpl; constructor; [apply IH|].
  apply Forall_forall. intros j Hj. apply in_map_iff in Hj.
  destruct Hj as (f & <- & Hf). apply indexed_from_position in Hf. lia.
Qed.

Lemma filter_sorted (p : IndexedStep -> bool) l :
  StronglySorted Z.lt (map idx l) -> StronglySorted Z.lt (map idx (filter p l)).
Proof.
  induction l as [|f rest IH]; simpl; intros H; [constructor|].
  apply StronglySorted_inv in H. destruct H as [Hrest Hall].
  destruct (p f); simpl; [constructor|]; auto.
  apply Forall_forall. intros j Hj. apply in_map_iff in Hj.
  destruct Hj as (g & <- & Hg). apply filter_In in Hg.
  rewrite Forall_forall in Hall. apply Hall. apply in_map. tauto.
Qed.

Lemma filtered_unfold catalog query :
  filtered catalog query
  = filter (fun f => matches (toLowerCase (trim query)) (step f)) (indexed catalog).
Proof.
  unfold filtered. destruct (is_empty (toLowerCase (trim query))) eqn:Hq;
    [|reflexivity].
  apply is_empty_true in Hq. rewrite Hq.
  symmetry. apply forallb_filter_id. apply forallb_forall. intros f _.
  unfold matches. now rewrite includes_empty.
Qed.

Lemma filtered_position catalog query f :
  In f (filtered catalog query) -> nth_Z catalog (idx f) = Some (step f).
Proof.
  rewrite filtered_unfold. intros Hin. apply filter_In in Hin.
  destruct Hin as [Hin _]. apply indexed_from_position in Hin.
  destruct Hin as [Hle Hn]. unfold nth_Z.
  destruct (idx f <? 0) eqn:Hneg; [apply Z.ltb_lt in Hneg; lia|].
  now rewrite Z.sub_0_r in Hn.
Qed.

Lemma matches_occurs q s :
  matches q s = true <->
  occurs_in q (toLowerCase (title s))
  \/ occurs_in q (toLowerCase (details s))
  \/ occurs_in q (toLowerCase (Category_string (category s))).
Proof.
  unfold matches. rewrite !orb_true_iff, !includes_occurs. tauto.
Qed.

(** ** The cursor and the filtered list *)

Lemma reconcile_frame catalog st :
  search (reconcile catalog st) = search st
  /\ meta (reconcile catalog st) = meta st
  /\ states (reconcile catalog st) = states st.
Proof.
  unfold reconcile.
  destruct (_ >=? 0); [auto|].
  destruct (0 <? _); [|auto].
  destruct (filtered catalog (search st)); auto.
Qed.

Lemma reconcile_cases catalog st :
  (cursor_visible catalog st /\ reconcile catalog st = st)
  \/ (~ cursor_visible catalog st
      /\ filtered catalog (search st) = []
      /\ reconcile catalog st = st)
  \/ (~ cursor_visible catalog st
      /\ exists f rest, filtered catalog (search st) = f :: rest
                        /\ reconcile catalog st = setCurrentIndex (idx f) st).
Proof.
  unfold reconcile, findIndex.
  set (visible := filtered catalog (search st)).
  set (p := fun (s : IndexedStep) (_ : Z) =>
              match option_map id (current catalog st) with
              | Some c => String.eqb (id (step s)) c
              | None => false
              end).
  destruct (findIndex_from_spec p visible 0) as [[Hr Hall]|(Hr & (x & Hx & Hp) & _)].
  - rewrite Hr. simpl.
    assert (~ cursor_visible catalog st) as Hnot.
    { intros (c & f & Hc & Hf & Hid). fold visible in Hf.
      destruct (In_nth_error _ _ Hf) as [n Hn].
      specialize (Hall _ _ Hn). unfold p in Hall. rewrite Hc in Hall. simpl in Hall.
      apply String.eqb_neq in Hall. contradiction. }
    right. destruct visible as [|f rest]; simpl; [left; auto|].
    right. split; [assumption|]. exists f, rest. auto.
  - assert ((findIndex_from p 0 visible >=? 0) = true) as ->
      by (apply Z.geb_le; lia).
    left. split; [|reflexivity].
    unfold p in Hp. destruct (current catalog st) as [c|] eqn:Hc; simpl in Hp;
      [|discriminate].
    apply String.eqb_eq in Hp. exists c, x. split; [assumption|].
    split; [|assumption]. fold visible. eapply nth_error_In; eauto.
Qed.

Lemma reconcile_visible catalog s :
  filtered catalog (search s) <> [] -> cursor_visible catalog (reconcile catalog s).
Proof.
  intros Hne.
  destruct (reconcile_cases catalog s)
    as [[Hv ->]|[(_ & Hnil & _)|(_ & f & rest & Hf & ->)]];
    [assumption | contradiction |].
  exists (step f), f. unfold current. simpl. rewrite Hf.
  split; [|simpl; auto].
  apply (filtered_position catalog (search s)). rewrite Hf. simpl. auto.
Qed.

Lemma reachable_visible catalog stored s :
  reachable catalog stored s ->
  filtered catalog (search s) <> [] -> cursor_visible catalog s.
Proof.
  intros Hs Hne.
  destruct Hs as [|s0 now ev s1 _ _|s0 _]; apply reconcile_visible;
    now rewrite (proj1 (reconcile_frame catalog _)) in Hne.
Qed.

Lemma indexed_from_In catalog : forall i0 n c,
  nth_error catalog n = Some c ->
  In {| step := c; idx := i0 + Z.of_nat n |} (indexed_from i0 catalog).
Proof.
  induction catalog as [|s rest IH]; intros i0 [|n] c Hn; simpl in Hn;
    try discriminate.
  - injection Hn as <-. left. now rewrite Z.add_0_r.
  - right. replace (i0 + Z.of_nat (S n)) with (i0 + 1 + Z.of_nat n) by lia.
    now apply IH.
Qed.

(** With no query every step is filtered in, so a cursor on a step is on a
    filtered step and the effect has nothing to do. *)
Lemma reconcile_blank catalog st c :
  blank (search st) = true -> current catalog st = Some c ->
  reconcile catalog st = st.
Proof.
  intros Hb Hc.
  assert (cursor_visible catalog st) as Hv.
  { destruct (nth_Z_Some _ _ _ Hc) as [Hi Hn].
    exists c, {| step := c; idx := 0 + Z.of_nat (Z.to_nat (currentIndex st)) |}.
    split; [assumption|]. split; [|reflexivity].
    unfold filtered. rewrite (trim_blank _ Hb).
    exact (indexed_from_In catalog 0 _ c Hn). }
  destruct (reconcile_cases catalog st)
    as [[_ Heq]|[(Hnv & _)|(Hnv & _)]]; [assumption | contradiction ..].
Qed.

(** C3 (amended). The effect never touches search text, metadata or status
    records. When the step under the cursor is among the filtered steps the
    cursor stays; when it is not and some step is filtered in, the cursor
    goes to the first filtered step; when no step is filtered in, the cursor
    stays where it was, so the step it points to is still the current step
    of the page. So whenever the filtered list is not empty, after the
    effect the cursor is on a filtered step, in every state of a session. *)
Theorem reconcile_cursor (catalog : list StepItem) (st : AppState) :
  let visible := filtered catalog (search st) in
  let st' := reconcile catalog st in
  (search st' = search st /\ meta st' = meta st /\ states st' = states st)
  /\ (cursor_visible catalog st -> st' = st)
  /\ (~ cursor_visible catalog st ->
      forall f rest, visible = f :: rest ->
                     currentIndex st' = idx f
                     /\ current catalog st' = Some (step f))
  /\ (visible = [] -> st' = st /\ current catalog st' = current catalog st)
  /\ (visible <> [] -> cursor_visible catalog st')
  /\ (forall stored s, reachable catalog stored s ->
                       filtered catalog (search s) <> [] ->
                       cursor_visible catalog s).
Proof.
  intros visible st'. subst visible st'.
  split; [apply reconcile_frame|].
  split; [|split; [|split; [|split;
    [apply reconcile_visible | apply reachable_visible]]]].
  - intros Hv.
    destruct (reconcile_cases catalog st)
      as [[_ Heq]|[(Hnv & _)|(Hnv & _)]]; [assumption | contradiction ..].
  - intros Hnv f rest Hf.
    destruct (reconcile_cases catalog st)
      as [[Hv _]|[(_ & Hnil & _)|(_ & f' & rest' & Hf' & Heq)]];
      [contradiction | congruence |].
    rewrite Hf in Hf'. injection Hf' as <- <-. rewrite Heq. simpl.
    split; [reflexivity|]. unfold current. simpl.
    apply (filtered_position catalog (search st)). rewrite Hf. simpl. auto.
  - intros Hnil.
    destruct (reconcile_cases catalog st)
      as [[_ Heq]|[(_ & _ & Heq)|(_ & f & rest & Hf & _)]];
      [now rewrite Heq .. | congruence].
Qed.

(** C7 (amended). The filtered list holds, in catalog order and each with
    its catalog index, exactly the steps in whose lowered title, lowered
    details or lowered category name the trimmed and lowered query occurs;
    a query that is empty or white space only gives the whole catalog. The
    list is a function of the query and the catalog, and typing a query
    changes neither a status record nor the metadata. *)
Theorem filtered_spec (catalog : list StepItem) (query : string) :
  let q := toLowerCase (trim query) in
  map step (filtered catalog query) = filter (matches q) catalog
  /\ (forall s, In s (map step (filtered catalog query)) <->
                In s catalog
                /\ (occurs_in q (toLowerCase (title s))
                    \/ occurs_in q (toLowerCase (details s))
                    \/ occurs_in q (toLowerCase (Category_string (category s)))))
  /\ StronglySorted Z.lt (map idx (filtered catalog query))
  /\ (forall f, In f (filtered catalog query) ->
                nth_Z catalog (idx f) = Some (step f))
  /\ (blank query = true ->
      filtered catalog query = indexed catalog
      /\ map step (filtered catalog query) = catalog)
  /\ (forall st, states (reconcile catalog (setSearch query st)) = states st
                 /\ meta (reconcile catalog (setSearch query st)) = meta st).
Proof.
  intros q.
  assert (map step (filtered catalog query) = filter (matches q) catalog) as Hsteps
    by (rewrite filtered_unfold; apply filter_steps).
  split; [exact Hsteps|]. split.
  { intros s. rewrite Hsteps, filter_In, matches_occurs. reflexivity. }
  split.
  { rewrite filtered_unfold. apply filter_sorted, indexed_from_sorted. }
  split; [apply filtered_position|]. split.
  { intros Hblank. unfold filtered. rewrite (trim_blank _ Hblank). simpl.
    split; [reflexivity | apply indexed_from_steps]. }
  intros st. destruct (reconcile_frame catalog (setSearch query st)) as (_ & Hm & Hs).
  now rewrite Hm, Hs.
Qed.

(** ** Status transitions *)

Lemma setStatus_records now i status st :
  Forall2 (fun old new =>
             (record_id old = Some i
              /\ status_of new = VStr (Status_string status)
              /\ doneAt_of new = stamp now status)
             \/ (record_id old <> Some i /\ new = old))
          (states st) (map (updated now i status) (states st)).
Proof.
  apply Forall2_map_r. intros s _.
  destruct (record_id s) as [j|] eqn:Hj.
  - destruct (String.eqb j i) eqn:Hji.
    + apply String.eqb_eq in Hji. subst j. left.
      split; [reflexivity|]. now apply updated_same.
    + apply String.eqb_neq in Hji. right.
      split; [congruence|]. apply updated_other. rewrite Hj. congruence.
  - right. split; [discriminate|]. apply updated_other. rewrite Hj. discriminate.
Qed.

Lemma unknown_id_untouched catalog now i status l :
  aligned catalog l -> ~ In i (identities catalog) ->
  map (updated now i status) l = l.
Proof.
  intros Hal Hin. rewrite <- (map_id l) at 2. apply map_ext_in.
  intros s Hs. apply updated_other. intros Hid.
  apply Hin. unfold identities.
  assert (In (Some i) (map record_id l)) as Hsome
    by (rewrite <- Hid; now apply in_map).
  rewrite Hal in Hsome. apply in_map_iff in Hsome.
  destruct Hsome as (c & Hc & Hcin). injection Hc as <-. now apply in_map.
Qed.

(** C6 (amended). [setStatus] raises no error for any identity: on a status
    list aligned with the catalog it always returns. For an identity that is
    not in the catalog the state is returned unchanged; for any identity,
    exactly the records of that identity get the new status and the stamp
    (the current instant for [done], no timestamp otherwise), every other
    record, the search text, the metadata and the cursor are kept; so for an
    identity of the catalog its record is updated. *)
Theorem setStatus_total (catalog : list StepItem) (now i : string)
  (status : Status) (st : AppState) :
  aligned catalog (states st) ->
  exists st',
    setStatus now i status st = Normal st'
    /\ search st' = search st /\ meta st' = meta st
    /\ currentIndex st' = currentIndex st
    /\ aligned catalog (states st')
    /\ Forall2 (fun old new =>
                  (record_id old = Some i
                   /\ status_of new = VStr (Status_string status)
                   /\ doneAt_of new = stamp now status)
                  \/ (record_id old <> Some i /\ new = old))
               (states st) (states st')
    /\ (~ In i (identities catalog) -> st' = st)
    /\ (In i (identities catalog) ->
        exists r, In r (states st') /\ record_id r = Some i
                  /\ status_of r = VStr (Status_string status)
                  /\ doneAt_of r = stamp now status).
Proof.
  intros Hal.
  exists (setStates (map (updated now i status) (states st)) st).
  split; [now apply (setStatus_aligned catalog)|].
  repeat split; simpl.
  - now apply aligned_updated.
  - apply setStatus_records.
  - intros Hin. rewrite (unknown_id_untouched catalog) by assumption.
    apply setStates_same.
  - intros Hin. unfold identities in Hin. apply in_map_iff in Hin.
    destruct Hin as (c & <- & Hc).
    destruct (In_nth_error _ _ Hc) as [n Hn].
    destruct (aligned_nth _ _ Hal _ _ Hn) as (r & Hr & Hid).
    exists (updated now (id c) status r). split.
    + apply in_map. eapply nth_error_In; eauto.
    + rewrite record_id_updated. split; [assumption|]. now apply updated_same.
Qed.

(** C5. Skipping the step under the cursor marks its record skipped, with
    no timestamp, and moves the cursor one position forward, stopping at
    the last step; the new cursor depends on the old cursor and the catalog
    length only, not on any status. With no query typed, the effect that
    follows leaves the cursor there. *)
Theorem onSkip_moves_one (catalog : list StepItem) (now : string)
  (st : AppState) (c : StepItem) :
  aligned catalog (states st) ->
  current catalog st = Some c ->
  exists st',
    onSkip catalog now st = Normal st'
    /\ status_at (states st') (currentIndex st) = VStr "skipped"
    /\ doneAt_at (states st') (currentIndex st) = VUndef
    /\ aligned catalog (states st')
    /\ currentIndex st' = Z.min (Z.of_nat (List.length catalog) - 1) (currentIndex st + 1)
    /\ (currentIndex st + 1 < Z.of_nat (List.length catalog) ->
        currentIndex st' = currentIndex st + 1)
    /\ (currentIndex st + 1 = Z.of_nat (List.length catalog) ->
        currentIndex st' = currentIndex st)
    /\ search st' = search st /\ meta st' = meta st
    /\ (blank (search st) = true -> reconcile catalog st' = st').
Proof.
  intros Hal Hc.
  destruct (nth_Z_Some _ _ _ Hc) as [Hcur _].
  exists (setCurrentIndex
            (Z.min (Z.of_nat (List.length catalog) - 1) (currentIndex st + 1))
            (setStates (map (updated now (id c) Skipped) (states st)) st)).
  split.
  { unfold onSkip, current_id. rewrite Hc. simpl.
    now rewrite (setStatus_aligned catalog) by assumption. }
  pose proof (record_at_cursor _ _ Hal _ _ Hc) as Hrec.
  destruct (updated_same now (id c) Skipped _ Hrec) as [Hs Hd].
  unfold status_at, doneAt_at. simpl. rewrite at_index_updated.
  repeat split; auto; try lia.
  - now apply aligned_updated.
  - intros Hb.
    destruct (nth_Z_in_range catalog
                (Z.min (Z.of_nat (List.length catalog) - 1) (currentIndex st + 1))
                ltac:(lia)) as [c' Hc'].
    now apply (reconcile_blank _ _ c').
Qed.

(** C10. [resetAll] makes every record pending with no timestamp, one per
    catalog step, and puts the cursor on the first step (index 0); search
    text and metadata are kept; a second reset changes nothing. With no
    query typed, the effect that follows leaves the cursor on the first
    step. *)
Theorem resetAll_resets (catalog : list StepItem) (st : AppState) :
  let st' := resetAll catalog st in
  states st' = map todoState (identities catalog)
  /\ aligned catalog (states st')
  /\ Forall pending (states st')
  /\ currentIndex st' = 0
  /\ search st' = search st /\ meta st' = meta st
  /\ resetAll catalog st' = st'
  /\ (blank (search st) = true -> catalog <> [] -> reconcile catalog st' = st').
Proof.
  simpl. unfold identities. rewrite map_map. repeat split.
  - unfold aligned. rewrite map_map. reflexivity.
  - apply Forall_forall. intros r Hr. in_map_inv Hr c.
    apply pending_todoState.
  - intros Hb Hne. destruct catalog as [|c rest]; [contradiction|].
    now apply (reconcile_blank _ _ c).
Qed.

(** The records at the other positions are the ones [onMarkDone] read in
    its closure. *)
Lemma status_elsewhere catalog now status st c j :
  NoDup (identities catalog) -> aligned catalog (states st) ->
  current catalog st = Some c -> j <> currentIndex st ->
  at_index (map (updated now (id c) status) (states st)) j = at_index (states st) j.
Proof.
  intros Hnd Hal Hc Hj. rewrite at_index_updated.
  apply updated_other. eapply record_elsewhere; eauto.
Qed.

(** C1. Ticking the checkbox of the step under the cursor marks its record
    done, stamped with the current instant, and moves the cursor to the
    first later step of the catalog whose status is not done; when every
    later step is done the cursor stays. Unticking marks the record todo,
    with no timestamp, and leaves the cursor where it is. No other record
    changes. With no query typed, the effect that follows leaves the cursor
    there. *)
Theorem onMarkDone_advances (catalog : list StepItem) (now : string)
  (checked : CheckedState) (st : AppState) (c : StepItem) :
  NoDup (identities catalog) ->
  aligned catalog (states st) ->
  current catalog st = Some c ->
  exists st',
    onMarkDone catalog now checked st = Normal st'
    /\ aligned catalog (states st')
    /\ (forall j, j <> currentIndex st ->
                  at_index (states st') j = at_index (states st) j)
    /\ (blank (search st) = true -> reconcile catalog st' = st')
    /\ (Boolean checked = true ->
        status_at (states st') (currentIndex st) = VStr "done"
        /\ doneAt_at (states st') (currentIndex st) = VStr now
        /\ ((exists j, incomplete_after catalog (states st') (currentIndex st) j) ->
            incomplete_after catalog (states st') (currentIndex st) (currentIndex st')
            /\ forall j, incomplete_after catalog (states st') (currentIndex st) j ->
                         currentIndex st' <= j)
        /\ ((forall j, ~ incomplete_after catalog (states st') (currentIndex st) j) ->
            currentIndex st' = currentIndex st))
    /\ (Boolean checked = false ->
        status_at (states st') (currentIndex st) = VStr "todo"
        /\ doneAt_at (states st') (currentIndex st) = VUndef
        /\ currentIndex st' = currentIndex st).
Proof.
  intros Hnd Hal Hc.
  pose proof (record_at_cursor _ _ Hal _ _ Hc) as Hrec.
  destruct (nth_Z_Some _ _ _ Hc) as [Hcur _].
  set (cur := currentIndex st) in *.
  set (p := fun (_ : StepItem) (i : Z) =>
              (cur <? i) && negb (is_done (at_index (states st) i))).
  assert (forall status j, j <> cur ->
            at_index (map (updated now (id c) status) (states st)) j
            = at_index (states st) j) as Hother
    by (intros; now apply (status_elsewhere catalog)).
  assert (forall status,
            blank (search st) = true ->
            reconcile catalog
              (setStates (map (updated now (id c) status) (states st)) st)
            = setStates (map (updated now (id c) status) (states st)) st) as Hstay
    by (intros status Hb; now apply (reconcile_blank _ _ c)).
  unfold onMarkDone, current_id. rewrite Hc. simpl.
  rewrite (setStatus_aligned catalog) by assumption. simpl.
  destruct (Boolean checked) eqn:Hchk.
  - (* ticked *)
    fold cur. fold p.
    set (l' := map (updated now (id c) Done) (states st)).
    assert (forall j, cur < j ->
              (p c j = true <-> status_at l' j <> VStr "done")) as Hp.
    { intros j Hj. unfold p, status_at, l'. rewrite Hother by lia.
      assert ((cur <? j) = true) as -> by (apply Z.ltb_lt; lia). simpl.
      rewrite <- is_done_status.
      destruct (is_done (at_index (states st) j)); simpl; split; congruence. }
    assert (forall x y j, p x j = p y j) as Hpx by reflexivity.
    destruct (updated_same now (id c) Done _ Hrec) as [Hs Hd].
    pose proof (findIndex_from_spec p catalog 0) as Hfind. simpl in Hfind.
    fold (findIndex p catalog) in Hfind.
    destruct Hfind as [[Hr Hall]|(Hr & (x & Hx & Hpr) & Hall)].
    + (* every later step is done *)
      rewrite Hr. simpl.
      assert (forall j, ~ incomplete_after catalog l' cur j) as Hnone.
      { intros j [[Hlo Hhi] Hst].
        destruct (nth_Z_in_range catalog j ltac:(lia)) as [y Hy].
        apply nth_Z_Some in Hy. destruct Hy as [_ Hy].
        specialize (Hall _ _ Hy). rewrite Z2Nat.id in Hall by lia.
        rewrite (Hpx y c) in Hall. apply Hp in Hst; [congruence|lia]. }
      eexists. split; [reflexivity|]. simpl.
      split; [now apply aligned_updated|]. split; [now apply Hother|].
      split; [apply Hstay|].
      split; [|discriminate]. intros _.
      unfold status_at, doneAt_at. fold l'. unfold l' at 1 2.
      rewrite at_index_updated.
      split; [assumption|]. split; [assumption|]. split.
      * intros [j Hj]. now destruct (Hnone j).
      * reflexivity.
    + (* a later step is not done *)
      assert ((findIndex p catalog >? -1) = true) as -> by (apply Z.gtb_lt; lia).
      eexists. split; [reflexivity|]. simpl.
      split; [now apply aligned_updated|]. split; [now apply Hother|].
      split.
      { intros Hb.
        destruct (nth_Z_in_range catalog (findIndex p catalog) ltac:(lia))
          as [c' Hc'].
        now apply (reconcile_blank _ _ c'). }
      split; [|discriminate]. intros _.
      unfold status_at at 1. unfold doneAt_at. fold l'. unfold l' at 1 2.
      rewrite at_index_updated.
      assert (cur < findIndex p catalog) as Hlt.
      { unfold p in Hpr. apply andb_prop in Hpr. destruct Hpr as [Hpr _].
        now apply Z.ltb_lt in Hpr. }
      assert (incomplete_after catalog l' cur (findIndex p catalog)) as Hnext.
      { split; [lia|]. apply Hp; [assumption|]. now rewrite (Hpx c x). }
      split; [assumption|]. split; [assumption|]. split.
      * intros _. split; [exact Hnext|].
        intros j [[Hlo Hhi] Hst].
        destruct (Z_lt_le_dec j (findIndex p catalog)) as [Hjr|Hjr]; [|assumption].
        destruct (nth_Z_in_range catalog j ltac:(lia)) as [y Hy].
        apply nth_Z_Some in Hy. destruct Hy as [_ Hy].
        specialize (Hall (Z.to_nat j) y). rewrite Z2Nat.id in Hall by lia.
        specialize (Hall Hjr Hy).
        rewrite (Hpx y c) in Hall. apply Hp in Hst; [congruence|lia].
      * intros Hnone. now destruct (Hnone _ Hnext).
  - (* unticked *)
    eexists. split; [reflexivity|]. simpl.
    split; [now apply aligned_updated|]. split; [now apply Hother|].
    split; [apply Hstay|].
    split; [discriminate|]. intros _.
    destruct (updated_same now (id c) Todo _ Hrec) as [Hs Hd].
    unfold status_at, doneAt_at. rewrite at_index_updated. auto.
Qed.

(** ** Progress *)

Lemma Array_filter_total {A : Type} (p : A -> completion bool) (q : A -> bool) :
  forall l, Forall (fun x => p x = Normal (q x)) l ->
            Array_filter p l = Normal (filter q l).
Proof.
  induction 1 as [|x rest Hx _ IH]; simpl.
  - reflexivity.
  - rewrite Hx. simpl. rewrite IH. reflexivity.
Qed.

Lemma doneCount_aligned catalog l :
  aligned catalog l -> doneCount l = Normal (count_done l).
Proof.
  intros Hal. unfold doneCount, count_done.
  rewrite (Array_filter_total _ is_done); [reflexivity|].
  eapply Forall_impl; [|exact (aligned_records _ _ Hal)].
  intros s [j Hj]. destruct (record_id_Some _ _ Hj) as (props & -> & _).
  reflexivity.
Qed.

Lemma count_done_le l : (count_done l <= List.length l)%nat.
Proof. apply filter_length_le. Qed.

Lemma number_same_eq x y : number_same x y = true -> x = y.
Proof.
  destruct x as [s|s| |s m e], y as [t|t| |t n f]; simpl; try discriminate.
  - intros H. apply Bool.eqb_prop in H. now subst.
  - intros H. apply Bool.eqb_prop in H. now subst.
  - reflexivity.
  - intros H. apply andb_prop in H. destruct H as [H He].
    apply andb_prop in H. destruct H as [Hs Hm].
    apply Bool.eqb_prop in Hs. apply Pos.eqb_eq in Hm. apply Z.eqb_eq in He.
    now subst.
Qed.

(** Checked by evaluation: in a catalog of 1 to 39 steps the binary64
    computation gives the exactly rounded percentage. *)
Lemma percent_exact_below_40 : forallb percent_exact (seq 1 39) = true.
Proof. vm_compute. reflexivity. Qed.

Lemma percent_rounds done total :
  (0 < total < 40)%nat -> (done <= total)%nat ->
  percent done total
  = of_Z (round_half_up (100 * Z.of_nat done) (Z.of_nat total)).
Proof.
  intros Ht Hd. apply number_same_eq.
  pose proof percent_exact_below_40 as Hall.
  rewrite forallb_forall in Hall.
  assert (percent_exact total = true) as Hrow
    by (apply Hall, in_seq; lia).
  unfold percent_exact in Hrow. rewrite forallb_forall in Hrow.
  apply Hrow, in_seq. lia.
Qed.

(** C4 (amended). On a status list aligned with the catalog, [progress]
    is [Math.round] of the binary64 product [(done / total) * 100], where
    [done] counts the records whose status is done (a skipped or a todo
    record does not count) and [total] is the catalog size. For a catalog
    of 1 to 39 steps, the 25 of the shipped catalog among them, this is the
    integer nearest to [100 * done / total], a tie going up; one done out
    of three gives 33. On an empty catalog the result is NaN. *)
Theorem progress_percent (catalog : list StepItem) (l : list StepState) :
  aligned catalog l ->
  let total := List.length catalog in
  progress l = Normal (percent (count_done l) total)
  /\ (count_done l <= total)%nat
  /\ (forall s, is_done s = true <-> status_of s = VStr "done")
  /\ ((0 < total < 40)%nat ->
      progress l
      = Normal (of_Z (round_half_up (100 * Z.of_nat (count_done l)) (Z.of_nat total))))
  /\ (total = 25%nat -> progress l = Normal (of_Z (4 * Z.of_nat (count_done l))))
  /\ (total = 3%nat -> count_done l = 1%nat -> progress l = Normal (of_Z 33))
  /\ (total = 0%nat -> progress l = Normal NaN).
Proof.
  intros Hal total.
  pose proof (aligned_length _ _ Hal) as Hlen. fold total in Hlen.
  pose proof (count_done_le l) as Hle. rewrite Hlen in Hle.
  assert (progress l = Normal (percent (count_done l) total)) as Hprog
    by (unfold progress; rewrite (doneCount_aligned catalog), Hlen by assumption;
        reflexivity).
  assert ((0 < total < 40)%nat ->
          progress l
          = Normal (of_Z (round_half_up (100 * Z.of_nat (count_done l))
                            (Z.of_nat total)))) as Hround
    by (intros Ht; rewrite Hprog, percent_rounds by assumption; reflexivity).
  repeat split; try assumption; try (now apply is_done_status).
  - intros H25. rewrite Hround by lia. rewrite H25. do 2 f_equal.
    unfold round_half_up.
    replace (2 * (100 * Z.of_nat (count_done l)) + Z.of_nat 25)
      with (25 + 4 * Z.of_nat (count_done l) * (2 * Z.of_nat 25)) by lia.
    rewrite Z.div_add by lia. reflexivity.
  - intros H3 H1. rewrite Hround by lia. now rewrite H3, H1.
  - intros H0. rewrite Hprog, H0.
    assert (count_done l = 0%nat) as -> by lia. reflexivity.
Qed.

(** ** The audit *)

Lemma findState_aligned : forall catalog l,
  NoDup (identities catalog) -> aligned catalog l ->
  forall n c r, nth_error catalog n = Some c -> nth_error l n = Some r ->
                findState l (id c) = Normal r.
Proof.
  unfold aligned, findState.
  induction catalog as [|c0 cs IH]; intros l Hnd Hal n c r Hc Hr.
  - destruct n; discriminate.
  - destruct l as [|r0 rs]; [discriminate|]. simpl in Hal.
    injection Hal as Hid0 Hal.
    destruct (record_id_Some _ _ Hid0) as (props & -> & Hprops).
    simpl in Hnd. apply NoDup_cons_iff in Hnd. destruct Hnd as [Hnotin Hnd].
    simpl. rewrite Hprops. simpl.
    destruct n as [|n]; simpl in Hc, Hr.
    + injection Hc as <-. injection Hr as <-. now rewrite String.eqb_refl.
    + assert (id c0 <> id c) as Hne.
      { intros Heq. apply Hnotin. rewrite Heq. unfold identities.
        apply in_map. eapply nth_error_In; eauto. }
      apply String.eqb_neq in Hne. rewrite Hne. eapply IH; eauto.
Qed.

Lemma map_combine {A B C : Type} (g : A -> C) (h : A -> B -> C) :
  forall (xs : list A) (ys : list B),
    List.length ys = List.length xs ->
    (forall n x y, nth_error xs n = Some x -> nth_error ys n = Some y -> g x = h x y) ->
    map g xs = map (fun xy => h (fst xy) (snd xy)) (combine xs ys).
Proof.
  induction xs as [|x xs IH]; intros [|y ys] Hlen Hgh; simpl in *;
    try discriminate; [reflexivity|].
  f_equal.
  - apply (Hgh 0%nat); reflexivity.
  - apply IH; [lia|]. intros n. apply (Hgh (S n)).
Qed.

Lemma audit_entry_pending c r : pending r -> audit_entry c r = pending_entry c.
Proof. intros [Hs Hd]. unfold audit_entry. now rewrite Hs, Hd. Qed.

Lemma map_entries_pending : forall catalog l,
  List.length l = List.length catalog -> Forall pending l ->
  map (fun cr => audit_entry (fst cr) (snd cr)) (combine catalog l)
  = map pending_entry catalog.
Proof.
  induction catalog as [|c cs IH]; intros [|r rs] Hlen Hall; simpl in *;
    try discriminate; [reflexivity|].
  apply Forall_cons_iff in Hall. destruct Hall as [Hr Hall].
  rewrite (audit_entry_pending _ _ Hr). f_equal. apply IH; [lia|assumption].
Qed.

(** C8. On a status list aligned with a catalog of unique identities,
    [exportAudit] builds a record with the metadata, the current instant as
    generation time, and one entry per catalog step, in catalog order, with
    the step's identity, title and category, the status of its record and
    the completion timestamp of its record, [null] when it has none. When
    every record is pending, as after a load that found nothing stored,
    every entry reports todo with a [null] timestamp. *)
Theorem exportAudit_reports (catalog : list StepItem) (now : string)
  (st : AppState) :
  NoDup (identities catalog) ->
  aligned catalog (states st) ->
  exists audit,
    exportAudit catalog now st = Normal audit
    /\ audit_meta audit = meta st
    /\ generatedAt audit = now
    /\ List.length (audit_steps audit) = List.length catalog
    /\ audit_steps audit
       = map (fun cr => audit_entry (fst cr) (snd cr)) (combine catalog (states st))
    /\ (forall c r v, status_of r = VStr v ->
                      audit_status (audit_entry c r) = VStr v)
    /\ (forall c r t, doneAt_of r = VStr t ->
                      audit_doneAt (audit_entry c r) = VStr t)
    /\ (forall c r, doneAt_of r = VUndef -> audit_doneAt (audit_entry c r) = VNull)
    /\ (Forall pending (states st) -> audit_steps audit = map pending_entry catalog)
    /\ (forall stored, nothing_stored stored ->
                       states st = loadState stored (identities catalog) ->
                       audit_steps audit = map pending_entry catalog).
Proof.
  intros Hnd Hal.
  pose proof (aligned_length _ _ Hal) as Hlen.
  set (g := fun c => audit_entry c
                       (match findState (states st) (id c) with
                        | Normal r => r
                        | Throw _ => VUndef
                        end)).
  assert (forall n c r, nth_error catalog n = Some c ->
                        nth_error (states st) n = Some r ->
                        g c = audit_entry c r) as Hg.
  { intros n c r Hc Hr. unfold g.
    now rewrite (findState_aligned catalog (states st) Hnd Hal n c r). }
  assert (map g catalog
          = map (fun cr => audit_entry (fst cr) (snd cr))
                (combine catalog (states st))) as Hentries
    by (apply map_combine; assumption).
  assert (Forall pending (states st) ->
          map g catalog = map pending_entry catalog) as Hpending
    by (intros Hall; rewrite Hentries; now apply map_entries_pending).
  exists {| audit_meta := meta st; generatedAt := now; audit_steps := map g catalog |}.
  split.
  { unfold exportAudit. rewrite (Array_map_total _ g); [reflexivity|].
    apply Forall_forall. intros c Hc.
    destruct (In_nth_error _ _ Hc) as [n Hn].
    destruct (aligned_nth _ _ Hal _ _ Hn) as (r & Hr & _).
    rewrite (findState_aligned catalog (states st) Hnd Hal n c r Hn Hr). simpl.
    now rewrite (Hg n c r). }
  simpl. repeat split; auto.
  - now rewrite length_map.
  - intros c r v Hv. now rewrite Hv.
  - intros c r t Ht. now rewrite Ht.
  - intros c r Hu. now rewrite Hu.
  - intros stored Hnone Hstates. apply Hpending. rewrite Hstates.
    rewrite (loadState_nothing_stored _ _ Hnone).
    apply Forall_forall. intros r Hr. in_map_inv Hr i.
    apply pending_todoState.
Qed.

(** ** Sessions *)

Lemma timestamp_todoState i : timestamp_iff_done (todoState i).
Proof. split; [discriminate | intros H; now destruct H]. Qed.

Lemma timestamp_updated now i status s :
  timestamp_iff_done s -> timestamp_iff_done (updated now i status s).
Proof.
  intros Hs.
  destruct (record_id s) as [j|] eqn:Hj.
  - destruct (String.eqb j i) eqn:Hji.
    + apply String.eqb_eq in Hji. subst j.
      destruct (updated_same now i status s Hj) as [Hst Hd].
      unfold timestamp_iff_done. rewrite Hst, Hd.
      destruct status; simpl; split; try discriminate; try reflexivity;
        intros H; now destruct H.
    + apply String.eqb_neq in Hji. rewrite updated_other; [assumption|].
      rewrite Hj. congruence.
  - rewrite updated_other; [assumption|]. rewrite Hj. discriminate.
Qed.

(** What an event does to the status records. *)
Lemma handle_states catalog now ev st st' :
  aligned catalog (states st) ->
  handle catalog now ev st = Normal st' ->
  states st' = states st
  \/ states st' = map todoState (identities catalog)
  \/ exists i status, states st' = map (updated now i status) (states st).
Proof.
  intros Hal.
  destruct ev as [q|m|i|checked| | | |]; simpl;
    try (intros H; injection H as <-; auto; fail).
  - unfold onMarkDone. destruct (current_id catalog st) as [i|e]; simpl;
      [|discriminate].
    rewrite (setStatus_aligned catalog) by assumption. simpl.
    destruct (Boolean checked); [destruct (_ >? -1)|];
      intros H; injection H as <-; simpl; eauto.
  - unfold onSkip. destruct (current_id catalog st) as [i|e]; simpl;
      [|discriminate].
    rewrite (setStatus_aligned catalog) by assumption. simpl.
    intros H; injection H as <-; simpl; eauto.
  - intros H; injection H as <-. right. left. simpl.
    unfold identities. now rewrite map_map.
Qed.

(** Every state of a session holds one record per catalog step. *)
Lemma reachable_aligned catalog stored st :
  reachable catalog stored st -> aligned catalog (states st).
Proof.
  induction 1 as [|st now ev st' _ Hal Hev|st _ _];
    rewrite (proj2 (proj2 (reconcile_frame catalog _))).
  - apply loadState_aligned.
  - destruct (handle_states _ _ _ _ _ Hal Hev) as [->|[->|(i & status & ->)]].
    + assumption.
    + unfold aligned, identities. now rewrite !map_map.
    + now apply aligned_updated.
  - apply loadState_aligned.
Qed.

Lemma loadState_timestamps stored ids :
  Forall timestamp_iff_done (records stored) ->
  Forall timestamp_iff_done (loadState stored ids).
Proof.
  intros Hblob. rewrite Forall_forall in Hblob.
  induction (loadState_shape stored ids) as [|i r ids' l' [[-> _]|[Hin _]] _ IH];
    constructor; auto using timestamp_todoState.
Qed.

Lemma reachable_timestamps catalog stored st :
  Forall timestamp_iff_done (records stored) ->
  reachable catalog stored st ->
  Forall timestamp_iff_done (states st).
Proof.
  intros Hblob Hreach.
  induction Hreach as [|st now ev st' Hreach Hinv Hev|st _ Hinv];
    rewrite (proj2 (proj2 (reconcile_frame catalog _))).
  - now apply loadState_timestamps.
  - pose proof (reachable_aligned _ _ _ Hreach) as Hal.
    destruct (handle_states _ _ _ _ _ Hal Hev) as [->|[->|(i & status & ->)]].
    + assumption.
    + apply Forall_forall. intros r Hr. in_map_inv Hr i.
      apply timestamp_todoState.
    + apply Forall_forall. intros r Hr. in_map_inv Hr s.
      apply timestamp_updated.
      rewrite Forall_forall in Hinv. now apply Hinv.
  - now apply loadState_timestamps, saveState_timestamps.
Qed.

(** C9 (amended). When every stored record that [JSON.parse] returns at the
    first start has a timestamp exactly if its status is done (in
    particular when nothing is stored, or the stored text does not parse to
    an array), every status record of every state of the page, after any
    run of events and restarts, has a timestamp exactly if its status is
    done. From such a state, [setStatus] returns a state with the same
    property, in which the records of the given identity carry the new
    status with the current instant as timestamp for done and no timestamp
    for todo or skipped, and the other records are as they were. *)
Theorem timestamps_follow_status (catalog : list StepItem) (stored : Blob)
  (st : AppState) :
  Forall timestamp_iff_done (records stored) ->
  reachable catalog stored st ->
  Forall timestamp_iff_done (states st)
  /\ aligned catalog (states st)
  /\ forall now i status,
       exists st',
         setStatus now i status st = Normal st'
         /\ Forall timestamp_iff_done (states st')
         /\ Forall2 (fun old new =>
                       (record_id old = Some i
                        /\ status_of new = VStr (Status_string status)
                        /\ doneAt_of new = stamp now status)
                       \/ (record_id old <> Some i /\ new = old))
                    (states st) (states st').
Proof.
  intros Hblob Hreach.
  pose proof (reachable_aligned _ _ _ Hreach) as Hal.
  pose proof (reachable_timestamps _ _ _ Hblob Hreach) as Hinv.
  split; [assumption|]. split; [assumption|].
  intros now i status.
  exists (setStates (map (updated now i status) (states st)) st).
  split; [now apply (setStatus_aligned catalog)|]. simpl. split.
  - apply Forall_forall. intros r Hr. in_map_inv Hr s.
    apply timestamp_updated.
    rewrite Forall_forall in Hinv. now apply Hinv.
  - apply setStatus_records.
Qed.

(** ** The shipped catalog *)

Lemma STEPS_unique : NoDup (identities STEPS).
Proof.
  pose proof (NoDup_nodup string_dec (identities STEPS)) as H.
  vm_compute in H. exact H.
Qed.

Lemma three_steps_unique : NoDup (identities three_steps).
Proof.
  pose proof (NoDup_nodup string_dec (identities three_steps)) as H.
  vm_compute in H. exact H.
Qed.

(** ** Where the specification and the code differ *)

(** C3, as stated, fails: with a query that matches no step the filtered
    list is empty, and the effect leaves the cursor on the first step, which
    is still the current step of the page. *)
Lemma reconcile_keeps_hidden_cursor :
  let st := setSearch "zzz" first_run in
  filtered STEPS (search st) = []
  /\ reconcile STEPS st = st
  /\ option_map id (current STEPS (reconcile STEPS st)) = Some "declare-incident".
Proof. vm_compute. repeat split. Qed.

(** C4, as stated, fails: on an empty catalog [progress] is NaN, not 0. *)
Lemma progress_of_empty_catalog :
  progress (loadState NoItem (identities [])) = Normal NaN
  /\ NaN <> of_Z 0.
Proof. split; [reflexivity | discriminate]. Qed.

(** With 23 steps done out of 40 the exact percentage is 57.5, which rounds
    to 58; the binary64 product is just below 57.5 and [progress] is 57. *)
Lemma percent_at_a_tie :
  percent 23 40 = of_Z 57 /\ round_half_up (100 * 23) 40 = 58.
Proof. split; vm_compute; reflexivity. Qed.

(** C6, as stated, fails: for an identity that no step has, [setStatus]
    returns normally, with the state it was given. *)
Lemma setStatus_ignores_unknown_identity :
  ~ In "no-such-step" (identities STEPS)
  /\ setStatus instant "no-such-step" Done first_run = Normal first_run.
Proof.
  split; [|reflexivity].
  intros H. vm_compute in H.
  repeat (destruct H as [H|H]; [discriminate|]). exact H.
Qed.

(** C7, as stated, fails: the query is trimmed before it is matched, so a
    query with a trailing space finds the Triage steps, none of which
    contains the lowered query with its space. *)
Lemma filtered_trims_query :
  map id (map step (filtered STEPS "triage "))
  = ["scope-triage"; "review-guardduty"; "review-cloudtrail"; "review-vpc-flows"]
  /\ filter (matches_untrimmed "triage ") STEPS = [].
Proof. split; vm_compute; reflexivity. Qed.

(** C9, as stated, fails: a stored record that is pending and has a
    timestamp is loaded as it is, into the first state of the page. *)
Lemma loadState_keeps_stray_timestamp :
  let st := reconcile STEPS (initialState STEPS stray_timestamp) in
  reachable STEPS stray_timestamp st
  /\ status_at (states st) 0 = VStr "todo"
  /\ doneAt_at (states st) 0 = VStr instant
  /\ ~ Forall timestamp_iff_done (states st).
Proof.
  split; [apply reach_init|]. split; [reflexivity|]. split; [reflexivity|].
  intros H. apply Forall_inv in H. destruct H as [_ H].
  assert (VStr "todo" = VStr "done") by (apply H; discriminate).
  discriminate.
Qed.

(** ** Instances *)

Lemma onMarkDone_advances_witness :
  NoDup (identities three_steps)
  /\ aligned three_steps (states last_completed)
  /\ current three_steps last_completed = Some (plain_step "A")
  /\ exists st',
       onMarkDone three_steps instant (CheckedBool true) last_completed = Normal st'
       /\ status_at (states st') 0 = VStr "done"
       /\ doneAt_at (states st') 0 = VStr instant.
Proof.
  split; [exact three_steps_unique|]. split; [reflexivity|]. split; [reflexivity|].
  destruct (onMarkDone_advances three_steps instant (CheckedBool true)
              last_completed (plain_step "A") three_steps_unique eq_refl eq_refl)
    as (st' & Hrun & _ & _ & _ & Hticked & _).
  destruct (Hticked eq_refl) as (Hs & Hd & _).
  exists st'. auto.
Defined.

Lemma progress_percent_witness :
  aligned STEPS (states first_run)
  /\ progress (states first_run) = Normal (of_Z 0).
Proof.
  split; [reflexivity|].
  destruct (progress_percent STEPS (states first_run) eq_refl)
    as (_ & _ & _ & _ & H25 & _).
  exact (H25 eq_refl).
Defined.

Lemma onSkip_moves_one_witness :
  aligned STEPS (states first_run)
  /\ option_map id (current STEPS first_run) = Some "declare-incident"
  /\ exists st',
       onSkip STEPS instant first_run = Normal st'
       /\ status_at (states st') 0 = VStr "skipped"
       /\ currentIndex st' = 1.
Proof.
  split; [reflexivity|]. split; [reflexivity|].
  destruct (current STEPS first_run) as [c|] eqn:Hc; [|discriminate].
  destruct (onSkip_moves_one STEPS instant first_run c eq_refl Hc)
    as (st' & Hrun & Hs & _ & _ & _ & Hnext & _).
  exists st'. split; [exact Hrun|]. split; [exact Hs|]. apply Hnext. reflexivity.
Defined.

Lemma setStatus_total_witness :
  aligned STEPS (states first_run)
  /\ exists st',
       setStatus instant "rotate-keys" Done first_run = Normal st'
       /\ exists r, In r (states st') /\ record_id r = Some "rotate-keys"
                    /\ status_of r = VStr "done" /\ doneAt_of r = VStr instant.
Proof.
  split; [reflexivity|].
  destruct (setStatus_total STEPS instant "rotate-keys" Done first_run eq_refl)
    as (st' & Hrun & _ & _ & _ & _ & _ & _ & Hknown).
  exists st'. split; [exact Hrun|]. apply Hknown.
  vm_compute. do 7 right. now left.
Defined.

Lemma exportAudit_reports_witness :
  NoDup (identities STEPS)
  /\ aligned STEPS (states first_run)
  /\ exists audit,
       exportAudit STEPS instant first_run = Normal audit
       /\ generatedAt audit = instant
       /\ audit_steps audit = map pending_entry STEPS.
Proof.
  split; [exact STEPS_unique|]. split; [reflexivity|].
  destruct (exportAudit_reports STEPS instant first_run STEPS_unique eq_refl)
    as (audit & Hrun & _ & Hat & _ & _ & _ & _ & _ & _ & Hload).
  exists audit. split; [exact Hrun|]. split; [exact Hat|].
  apply (Hload NoItem); [constructor | reflexivity].
Defined.

Lemma timestamps_follow_status_witness :
  let stored := Item (Normal (VArr [doneState "rotate-keys" instant])) in
  Forall timestamp_iff_done (records stored)
  /\ reachable STEPS stored (reconcile STEPS (initialState STEPS stored))
  /\ Forall timestamp_iff_done
            (states (reconcile STEPS (initialState STEPS stored))).
Proof.
  intros stored.
  assert (Forall timestamp_iff_done (records stored)) as Hblob.
  { constructor; [|constructor].
    split; [intros _; discriminate | reflexivity]. }
  split; [exact Hblob|]. split; [apply reach_init|].
  exact (proj1 (timestamps_follow_status STEPS stored _ Hblob
                  (reach_init STEPS stored))).
Defined.

(** ** Scenarios *)

(** Steps A and B pending, C completed: ticking A moves the cursor to B. *)
Example tick_moves_to_next_incomplete :
  option_map currentIndex
    (match onMarkDone three_steps instant (CheckedBool true) last_completed with
     | Normal st' => Some st'
     | Throw _ => None
     end) = Some 1.
Proof. reflexivity. Qed.

(** Ticking the last incomplete step leaves the cursor where it is. *)
Example tick_at_the_end_stays :
  match run three_steps instant [Next; MarkDone (CheckedBool true)] last_completed with
  | Normal st' => (currentIndex st', map status_of (states st'))
  | Throw _ => (-1, [])
  end = (1, [VStr "todo"; VStr "done"; VStr "done"]).
Proof. reflexivity. Qed.

(** Unticking clears the timestamp and keeps the cursor. *)
Example untick_keeps_cursor :
  match run three_steps instant
          [SelectStep 2; MarkDone (CheckedBool false)] last_completed with
  | Normal st' => (currentIndex st', status_at (states st') 2, doneAt_at (states st') 2)
  | Throw _ => (-1, VNull, VNull)
  end = (2, VStr "todo", VUndef).
Proof. reflexivity. Qed.

(** Mark step 1 done, skip step 2, leave step 3: 33 percent, and the audit
    reports done, skipped, todo. *)
Example one_of_three :
  match run three_steps instant [MarkDone (CheckedBool true); Skip]
          (initialState three_steps NoItem) with
  | Normal st' =>
      (progress (states st'),
       match exportAudit three_steps instant st' with
       | Normal audit => map audit_status (audit_steps audit)
       | Throw _ => []
       end,
       currentIndex st')
  | Throw _ => (Throw TypeError, [], -1)
  end = (Normal (of_Z 33), [VStr "done"; VStr "skipped"; VStr "todo"], 2).
Proof. vm_compute. reflexivity. Qed.

(** A query that hides the current step sends the cursor to the first
    filtered step; clearing the query shows the whole catalog again. *)
Example search_moves_cursor :
  match run STEPS instant [SetSearch "Forensics"; SetSearch ""] first_run with
  | Normal st' =>
      (currentIndex st', List.length (filtered STEPS (search st')),
       map idx (filtered STEPS "Forensics"))
  | Throw _ => (-1, 0%nat, [])
  end = (11, 25%nat, [11; 12]).
Proof. vm_compute. reflexivity. Qed.

(** A stored array with a record of the catalog, a record of a removed step
    and no record for the first step. *)
Example load_partly_stale :
  loadState (Item (Normal (VArr [doneState "preserve-logs" instant;
                                 doneState "removed-step" instant])))
            ["declare-incident"; "preserve-logs"]
  = [todoState "declare-incident"; doneState "preserve-logs" instant].
Proof. reflexivity. Qed.

(** A stored value that is not an array of records. *)
Example load_malformed :
  loadState (Item (Normal (VArr [VNull]))) ["declare-incident"]
  = [todoState "declare-incident"]
  /\ loadState (Item (Normal (VObj [("map", VNum (of_Z 1))]))) ["declare-incident"]
     = [todoState "declare-incident"]
  /\ loadState (Item (Throw SyntaxError)) ["declare-incident"]
     = [todoState "declare-incident"].
Proof. repeat split. Qed.

(** [Math.round] at ties and around zero: 2.5, -2.5, -0.5, 0.25 and the
    largest number below 0.5. *)
Example Math_round_ties :
  Math_round (div (of_Z 5) (of_Z 2)) = of_Z 3
  /\ Math_round (div (of_Z (-5)) (of_Z 2)) = of_Z (-2)
  /\ Math_round (div (of_Z (-1)) (of_Z 2)) = S754_zero true
  /\ Math_round (div (of_Z 1) (of_Z 4)) = S754_zero false
  /\ Math_round (S754_finite false 9007199254740991 (-54)) = S754_zero false
  /\ Math_round NaN = NaN.
Proof. vm_compute. repeat split. Qed.

(** The string methods of the filter. *)
Example string_methods :
  trim "  IAM keys  " = "IAM keys"
  /\ toLowerCase "Post-Incident" = "post-incident"
  /\ includes "post-incident" "inc" = true
  /\ includes "post-incident" "" = true
  /\ includes "post-incident" "incidents" = false.
Proof. vm_compute. repeat split. Qed.

(** What a session saved is what the next one loads: statuses and
    timestamps survive a restart. *)
Example restart_keeps_statuses :
  match run three_steps instant
          [MarkDone (CheckedBool true); Skip; SelectStep 0;
           MarkDone (CheckedBool false); SelectStep 2; MarkDone (CheckedBool true)]
          (initialState three_steps NoItem) with
  | Normal st' =>
      let reloaded := loadState (saveState (states st')) (identities three_steps) in
      (map status_of reloaded, map doneAt_of reloaded,
       map status_of (states st'), map doneAt_of (states st'))
  | Throw _ => ([], [], [], [])
  end
  = ([VStr "todo"; VStr "skipped"; VStr "done"], [VUndef; VUndef; VStr instant],
     [VStr "todo"; VStr "skipped"; VStr "done"], [VUndef; VUndef; VStr instant]).
Proof. vm_compute. reflexivity. Qed.

(** * More of the component *)

(** ** Back and Next *)

Lemma setCurrentIndex_same st i : i = currentIndex st -> setCurrentIndex i st = st.
Proof. intros ->. now destruct st. Qed.






(** ** The effect settles *)

(** X2. The effect that reconciles the cursor with the filtered list
    changes the cursor, which is one of its own dependencies, so it runs
    again; the second run changes nothing. *)
Theorem reconcile_settles (catalog : list StepItem) (st : AppState) :
  reconcile catalog (reconcile catalog st) = reconcile catalog st.
Proof.
  destruct (reconcile_cases catalog st)
    as [[_ Heq]|[(_ & _ & Heq)|(_ & f & rest & Hf & Heq)]];
    [now rewrite Heq .. |].
  assert (cursor_visible catalog (reconcile catalog st)) as Hv
    by (apply reconcile_visible; rewrite Hf; discriminate).
  destruct (reconcile_cases catalog (reconcile catalog st))
    as [[_ Hsame]|[(Hnv & _)|(Hnv & _)]]; [assumption | contradiction ..].
Qed.

(** ** Loading what was stored *)

Lemma entry_of_defined s :
  is_nullish s = false -> entry_of s = Normal (opt_get s "id", s).
Proof. destruct s; simpl; intros H; try discriminate; reflexivity. Qed.

Lemma entries_defined elems :
  Forall (fun s => is_nullish s = false) elems ->
  Array_map entry_of elems = Normal (map (fun s => (opt_get s "id", s)) elems).
Proof.
  intros H. apply Array_map_total.
  eapply Forall_impl; [|exact H]. intros s Hs. now apply entry_of_defined.
Qed.

Lemma Array_map_throws {A B : Type} (f : A -> completion B) x e :
  f x = Throw e -> forall l, In x l -> exists e', Array_map f l = Throw e'.
Proof.
  intros Hx. induction l as [|y rest IH]; simpl; [contradiction|].
  intros [->|Hin].
  - rewrite Hx. simpl. eauto.
  - destruct (f y) as [b|e0]; simpl; [|eauto].
    destruct (IH Hin) as [e' ->]. simpl. eauto.
Qed.

Lemma record_is_object r i : record_id r = Some i -> is_nullish r = false.
Proof. intros H. now destruct (record_id_Some _ _ H) as (props & -> & _). Qed.

Lemma nullish_record r i d : record_id r = Some i -> nullish r d = r.
Proof. intros H. now destruct (record_id_Some _ _ H) as (props & -> & _). Qed.

Lemma strict_eq_record_id s i :
  strict_eq_string (opt_get s "id") i = true <-> record_id s = Some i.
Proof.
  unfold record_id. split.
  - intros H. apply strict_eq_string_true in H. now rewrite H.
  - destruct (opt_get s "id"); try discriminate.
    intros H. injection H as ->. simpl. apply String.eqb_refl.
Qed.

Lemma Map_get_missing entries k :
  (forall k' v, In (k', v) entries -> strict_eq_string k' k = false) ->
  Map_get entries k = VUndef.
Proof.
  induction entries as [|[k' v] rest IH]; simpl; intros H.
  - reflexivity.
  - rewrite IH by (intros; eapply H; eauto).
    now rewrite (H k' v) by auto.
Qed.

Lemma Map_get_no_record elems i :
  (forall s, In s elems -> record_id s <> Some i) ->
  Map_get (map (fun s => (opt_get s "id", s)) elems) i = VUndef.
Proof.
  intros H. apply Map_get_missing. intros k v Hin.
  apply in_map_iff in Hin. destruct Hin as (s & Heq & Hs). injection Heq as <- <-.
  destruct (strict_eq_string (opt_get s "id") i) eqn:Hk; [|reflexivity].
  apply strict_eq_record_id in Hk. now destruct (H s Hs).
Qed.

Lemma Map_get_app xs ys k :
  Map_get (xs ++ ys) k
  = match Map_get ys k with
    | VUndef => Map_get xs k
    | later => later
    end.
Proof.
  induction xs as [|[k' v] rest IH]; simpl.
  - now destruct (Map_get ys k).
  - rewrite IH. now destruct (Map_get ys k).
Qed.

(** The last stored record of an identity is the one the map gives. *)
Lemma Map_get_last before r after i :
  record_id r = Some i ->
  (forall s, In s after -> record_id s <> Some i) ->
  Map_get (map (fun s => (opt_get s "id", s)) (before ++ r :: after)) i = r.
Proof.
  intros Hr Hafter. rewrite map_app, Map_get_app. simpl.
  rewrite (Map_get_no_record after i Hafter).
  rewrite (proj2 (strict_eq_record_id r i) Hr).
  now destruct (record_id_Some _ _ Hr) as (props & -> & _).
Qed.

(** X3. When the stored text holds several records of one identity, the
    record loaded for that identity is the last of them. *)
Theorem stored_duplicates_last_wins (before after : list value) (r : value)
  (ids : list string) (i : string) (n : nat) :
  Forall (fun s => is_nullish s = false) (before ++ r :: after) ->
  record_id r = Some i ->
  (forall s, In s after -> record_id s <> Some i) ->
  nth_error ids n = Some i ->
  nth_error (loadState (Item (Normal (VArr (before ++ r :: after)))) ids) n = Some r.
Proof.
  intros Hdef Hr Hafter Hn.
  unfold loadState, loadState_try. simpl.
  rewrite (entries_defined _ Hdef). simpl.
  rewrite nth_error_map, Hn. simpl.
  rewrite (Map_get_last before r after i Hr Hafter).
  now rewrite (nullish_record r i).
Qed.

(** X4. A stored value that is not an array, or an array with one [null]
    among its elements, loses every stored status: all records are loaded
    pending, also those whose stored record was well formed. *)
Theorem stored_null_discards_all (parsed : value) (ids : list string) :
  (forall elems, parsed = VArr elems -> In VNull elems) ->
  loadState (Item (Normal parsed)) ids = map todoState ids.
Proof.
  intros Hnull. unfold loadState, loadState_try. simpl.
  destruct parsed as [| | | | |elems|]; try reflexivity.
  simpl.
  destruct (Array_map_throws entry_of VNull TypeError eq_refl elems
              (Hnull elems eq_refl)) as [e ->].
  reflexivity.
Qed.

(** Loading an array that holds exactly one record per catalog step, in
    catalog order, gives that array. *)
Lemma Map_get_position : forall catalog l,
  NoDup (identities catalog) -> aligned catalog l ->
  forall n c r, nth_error catalog n = Some c -> nth_error l n = Some r ->
                Map_get (map (fun s => (opt_get s "id", s)) l) (id c) = r.
Proof.
  induction catalog as [|c0 cs IH]; intros l Hnd Hal n c r Hc Hr.
  - destruct n; discriminate.
  - destruct l as [|r0 rs]; [discriminate|].
    unfold aligned in Hal. simpl in Hal. injection Hal as Hid0 Hal.
    simpl in Hnd. apply NoDup_cons_iff in Hnd. destruct Hnd as [Hnotin Hnd].
    destruct n as [|n]; simpl in Hc, Hr.
    + injection Hc as <-. injection Hr as <-.
      apply (Map_get_last [] r0 rs (id c0) Hid0).
      intros s Hs Hid. apply Hnotin.
      assert (In (Some (id c0)) (map record_id rs)) as Hin
        by (rewrite <- Hid; now apply in_map).
      rewrite Hal in Hin. apply in_map_iff in Hin.
      destruct Hin as (c' & Hc' & Hin). injection Hc' as Hc'.
      unfold identities. rewrite <- Hc'. now apply in_map.
    + simpl. rewrite (IH rs Hnd Hal n c r Hc Hr).
      assert (record_id r = Some (id c)) as Hid.
      { destruct (aligned_nth cs rs Hal n c Hc) as (r' & Hr' & Hid).
        congruence. }
      now destruct (record_id_Some _ _ Hid) as (props & -> & _).
Qed.

Lemma loadState_aligned_array catalog l :
  NoDup (identities catalog) -> aligned catalog l ->
  loadState (Item (Normal (VArr l))) (identities catalog) = l.
Proof.
  intros Hnd Hal. unfold loadState, loadState_try. simpl.
  rewrite entries_defined.
  2: { eapply Forall_impl; [|exact (aligned_records _ _ Hal)].
       intros s [j Hj]. now apply (record_is_object s j). }
  simpl. apply nth_error_ext. intros n.
  unfold identities. rewrite !nth_error_map.
  destruct (nth_error catalog n) as [c|] eqn:Hc; simpl.
  - destruct (aligned_nth _ _ Hal _ _ Hc) as (r & Hr & Hid).
    rewrite (Map_get_position catalog l Hnd Hal n c r Hc Hr), Hr.
    now rewrite (nullish_record r (id c)).
  - symmetry. apply nth_error_None. rewrite (aligned_length _ _ Hal).
    now apply nth_error_None.
Qed.

(** ** Saving and loading *)

Lemma record_id_JSON_copy r : record_id (JSON_copy r) = record_id r.
Proof.
  unfold record_id. rewrite opt_get_JSON_copy.
  destruct (opt_get r "id") as [| | |x| | |]; try reflexivity.
  now destruct x.
Qed.

Lemma copy_of_element_record r j : record_id r = Some j -> copy_of_element r = JSON_copy r.
Proof. intros H. now destruct (record_id_Some _ _ H) as (props & -> & _). Qed.

Lemma saved_records catalog l :
  aligned catalog l -> map copy_of_element l = map JSON_copy l.
Proof.
  intros Hal. apply map_ext_in. intros r Hr.
  pose proof (aligned_records _ _ Hal) as Hrec. rewrite Forall_forall in Hrec.
  destruct (Hrec r Hr) as [j Hj]. now apply (copy_of_element_record r j).
Qed.

Lemma aligned_JSON_copy catalog l :
  aligned catalog l -> aligned catalog (map JSON_copy l).
Proof.
  unfold aligned. intros <-. rewrite map_map. apply map_ext.
  intros r. apply record_id_JSON_copy.
Qed.

Lemma is_done_JSON_copy r : is_done (JSON_copy r) = is_done r.
Proof.
  unfold is_done. rewrite opt_get_JSON_copy.
  destruct (opt_get r "status") as [| | |x| | |]; try reflexivity.
  now destruct x.
Qed.

Lemma count_done_JSON_copy l : count_done (map JSON_copy l) = count_done l.
Proof.
  unfold count_done. induction l as [|r rest IH]; simpl; [reflexivity|].
  rewrite is_done_JSON_copy. destruct (is_done r); simpl; now rewrite IH.
Qed.

Lemma at_index_JSON_copy l j : at_index (map JSON_copy l) j = JSON_copy (at_index l j).
Proof.
  unfold at_index, nth_Z. destruct (j <? 0); [reflexivity|].
  rewrite nth_error_map. destruct (nth_error l (Z.to_nat j)); reflexivity.
Qed.

Lemma load_saved catalog l :
  NoDup (identities catalog) -> aligned catalog l ->
  loadState (saveState l) (identities catalog) = map JSON_copy l.
Proof.
  intros Hnd Hal. unfold saveState. cbn [JSON_copy].
  change (map (fun x => match x with
                        | VUndef => VNull
                        | _ => JSON_copy x
                        end) l) with (map copy_of_element l).
  rewrite (saved_records catalog l Hal).
  apply loadState_aligned_array; [assumption | now apply aligned_JSON_copy].
Qed.

(** X5. What the page saves is what the next start loads: with unique
    identities, a status list with one record per step comes back with one
    record per step, every status and every timestamp that is a text as it
    was, a record without timestamp still without one, and so the same
    number of completed steps and the same progress. *)
Theorem save_load_round_trip (catalog : list StepItem) (l : list StepState) :
  NoDup (identities catalog) ->
  aligned catalog l ->
  let reloaded := loadState (saveState l) (identities catalog) in
  aligned catalog reloaded
  /\ (forall j v, status_at l j = VStr v -> status_at reloaded j = VStr v)
  /\ (forall j t, doneAt_at l j = VStr t -> doneAt_at reloaded j = VStr t)
  /\ (forall j, doneAt_at l j = VUndef -> doneAt_at reloaded j = VUndef)
  /\ count_done reloaded = count_done l
  /\ progress reloaded = progress l
  /\ (Forall timestamp_iff_done l -> Forall timestamp_iff_done reloaded).
Proof.
  intros Hnd Hal reloaded. subst reloaded. rewrite (load_saved catalog l Hnd Hal).
  pose proof (aligned_JSON_copy _ _ Hal) as Hal'.
  split; [assumption|].
  unfold status_at, doneAt_at, status_of, doneAt_of.
  repeat split.
  - intros j v Hv. now rewrite at_index_JSON_copy, opt_get_JSON_copy, Hv.
  - intros j t Ht. now rewrite at_index_JSON_copy, opt_get_JSON_copy, Ht.
  - intros j Hu. now rewrite at_index_JSON_copy, opt_get_JSON_copy, Hu.
  - apply count_done_JSON_copy.
  - unfold progress.
    rewrite (doneCount_aligned catalog _ Hal'), (doneCount_aligned catalog _ Hal).
    now rewrite count_done_JSON_copy, length_map.
  - intros Hinv. apply Forall_forall. intros r Hr. in_map_inv Hr x.
    apply timestamp_JSON_copy. rewrite Forall_forall in Hinv. now apply Hinv.
Qed.

(** X6. Reset, then a restart: the page starts exactly as on a first run
    with nothing stored. *)
Theorem reset_then_restart (catalog : list StepItem) (st : AppState) :
  NoDup (identities catalog) ->
  initialState catalog (saveState (states (resetAll catalog st)))
  = initialState catalog NoItem.
Proof.
  intros Hnd. unfold initialState. f_equal.
  rewrite (load_saved catalog).
  - unfold resetAll, loadState, loadState_try, identities. simpl.
    rewrite !map_map. reflexivity.
  - assumption.
  - unfold aligned. simpl. rewrite map_map. reflexivity.
Qed.

(** ** Setting a status again *)

Lemma set_prop_twice k x y props :
  set_prop k x (set_prop k y props) = set_prop k x props.
Proof.
  induction props as [|[k0 v] rest IH]; simpl.
  - now rewrite String.eqb_refl.
  - destruct (String.eqb k0 k) eqn:Hk; simpl.
    + now rewrite String.eqb_refl.
    + now rewrite Hk, IH.
Qed.

Lemma set_prop_keeps_key k x props : In k (map fst (set_prop k x props)).
Proof.
  induction props as [|[k0 v] rest IH]; simpl; [auto|].
  destruct (String.eqb k0 k); simpl; auto.
Qed.

Lemma set_prop_swap k k' x y props :
  k <> k' -> In k (map fst props) ->
  set_prop k x (set_prop k' y props) = set_prop k' y (set_prop k x props).
Proof.
  intros Hne. induction props as [|[k0 v] rest IH]; simpl; [contradiction|].
  intros Hin.
  destruct (String.eqb k0 k') eqn:Hk'; destruct (String.eqb k0 k) eqn:Hk; simpl.
  - apply String.eqb_eq in Hk', Hk. congruence.
  - apply String.eqb_eq in Hk'. subst k0.
    assert (String.eqb k' k = false) as Hf by (apply String.eqb_neq; congruence).
    rewrite Hf, String.eqb_refl. reflexivity.
  - apply String.eqb_eq in Hk. subst k0.
    assert (String.eqb k k' = false) as Hf by (now apply String.eqb_neq).
    rewrite Hf, String.eqb_refl. reflexivity.
  - rewrite Hk', Hk. f_equal. apply IH.
    destruct Hin as [Heq|Hin]; [|assumption].
    apply String.eqb_neq in Hk. now destruct Hk.
Qed.

Lemma updated_twice now1 now2 i s1 s2 r :
  updated now2 i s2 (updated now1 i s1 r) = updated now2 i s2 r.
Proof.
  unfold updated. destruct r as [| | | | | |props]; try reflexivity. simpl.
  destruct (strict_eq_string (lookup "id" props) i) eqn:Hid; simpl;
    [|now rewrite Hid].
  rewrite !lookup_set_prop_other by discriminate. rewrite Hid. f_equal.
  rewrite (set_prop_swap "status" "doneAt")
    by (discriminate || apply set_prop_keeps_key).
  now rewrite set_prop_twice, set_prop_twice.
Qed.

Lemma updated_apart now1 now2 i j s1 s2 r :
  i <> j ->
  updated now1 i s1 (updated now2 j s2 r) = updated now2 j s2 (updated now1 i s1 r).
Proof.
  intros Hne.
  destruct (record_id r) as [k|] eqn:Hk.
  - destruct (String.eqb k i) eqn:Hki.
    + apply String.eqb_eq in Hki. subst k.
      rewrite (updated_other now2 j s2 r) by (rewrite Hk; congruence).
      rewrite (updated_other now2 j s2)
        by (rewrite record_id_updated, Hk; congruence).
      reflexivity.
    + apply String.eqb_neq in Hki.
      rewrite (updated_other now1 i s1 r) by (rewrite Hk; congruence).
      rewrite (updated_other now1 i s1)
        by (rewrite record_id_updated, Hk; congruence).
      reflexivity.
  - rewrite !(updated_other _ _ _ r) by (rewrite Hk; discriminate).
    reflexivity.
Qed.

(** X7. [setStatus] keeps no history: setting the status of a step again
    gives the state that the second call alone gives, whatever the first
    status and instant were; and setting the statuses of two different
    steps gives the same state in either order. *)
Theorem setStatus_last_write_wins (catalog : list StepItem) (st : AppState)
  (now1 now2 i j : string) (s1 s2 : Status) :
  aligned catalog (states st) ->
  (st1 <- setStatus now1 i s1 st ;; setStatus now2 i s2 st1)
  = setStatus now2 i s2 st
  /\ (i <> j ->
      (st1 <- setStatus now1 i s1 st ;; setStatus now2 j s2 st1)
      = (st1 <- setStatus now2 j s2 st ;; setStatus now1 i s1 st1)).
Proof.
  intros Hal.
  rewrite !(setStatus_aligned catalog _ _ _ st) by assumption. simpl.
  rewrite !(setStatus_aligned catalog) by (simpl; now apply aligned_updated).
  simpl. unfold setStates. simpl. split.
  - do 2 f_equal. rewrite map_map. apply map_ext. intros r. apply updated_twice.
  - intros Hne. do 2 f_equal. rewrite !map_map. apply map_ext. intros r.
    symmetry. now apply updated_apart.
Qed.

(** ** Progress after a status change *)

Lemma count_done_cons r rs :
  count_done (r :: rs) = (Nat.b2n (is_done r) + count_done rs)%nat.
Proof. unfold count_done. simpl. now destruct (is_done r). Qed.

Lemma is_done_updated now i status r :
  record_id r = Some i ->
  is_done (updated now i status r)
  = match status with Done => true | _ => false end.
Proof.
  intros Hid. destruct (updated_same now i status r Hid) as [Hs _].
  unfold is_done. unfold status_of in Hs. rewrite Hs. now destruct status.
Qed.

Lemma untouched_records now i status l :
  (forall s, In s l -> record_id s <> Some i) ->
  map (updated now i status) l = l.
Proof.
  intros H. rewrite <- (map_id l) at 2. apply map_ext_in.
  intros s Hs. apply updated_other. now apply H.
Qed.

(** A status change moves the number of completed records by the record
    of that step alone. *)
Lemma count_done_updated now status : forall catalog l,
  NoDup (identities catalog) -> aligned catalog l ->
  forall n c r, nth_error catalog n = Some c -> nth_error l n = Some r ->
    (count_done (map (updated now (id c) status) l) + Nat.b2n (is_done r)
     = count_done l + Nat.b2n (match status with Done => true | _ => false end))%nat.
Proof.
  induction catalog as [|c0 cs IH]; intros l Hnd Hal n c r Hc Hr.
  - destruct n; discriminate.
  - destruct l as [|r0 rs]; [discriminate|].
    unfold aligned in Hal. simpl in Hal. injection Hal as Hid0 Hal.
    simpl in Hnd. apply NoDup_cons_iff in Hnd. destruct Hnd as [Hnotin Hnd].
    simpl map. rewrite !count_done_cons.
    destruct n as [|n]; simpl in Hc, Hr.
    + injection Hc as <-. injection Hr as <-.
      rewrite (is_done_updated now (id c0) status r0 Hid0).
      rewrite untouched_records; [lia|].
      intros s Hs Hid. apply Hnotin.
      assert (In (Some (id c0)) (map record_id rs)) as Hin
        by (rewrite <- Hid; now apply in_map).
      rewrite Hal in Hin. apply in_map_iff in Hin.
      destruct Hin as (c' & Hc' & Hin). injection Hc' as Hc'.
      unfold identities. rewrite <- Hc'. now apply in_map.
    + assert (id c0 <> id c) as Hne.
      { intros Heq. apply Hnotin. rewrite Heq. unfold identities.
        apply in_map. eapply nth_error_In; eauto. }
      rewrite (updated_other now (id c) status r0) by (rewrite Hid0; congruence).
      specialize (IH rs Hnd Hal n c r Hc Hr). lia.
Qed.

Lemma round_half_up_bounds c t :
  0 <= c <= t -> 0 < t -> 0 <= round_half_up (100 * c) t <= 100.
Proof.
  intros Hc Ht. unfold round_half_up. split.
  - apply Z.div_pos; lia.
  - apply Z.lt_succ_r. apply Z.div_lt_upper_bound; lia.
Qed.

Lemma round_half_up_mono c c' t :
  c <= c' -> 0 < t -> round_half_up (100 * c) t <= round_half_up (100 * c') t.
Proof.
  intros Hc Ht. unfold round_half_up. apply Z.div_le_mono; lia.
Qed.

Lemma shows_percent_aligned catalog l :
  aligned catalog l -> (0 < List.length catalog < 40)%nat ->
  shows_percent l (round_half_up (100 * Z.of_nat (count_done l))
                     (Z.of_nat (List.length catalog))).
Proof.
  intros Hal Ht.
  pose proof (aligned_length _ _ Hal) as Hlen.
  pose proof (count_done_le l) as Hle. rewrite Hlen in Hle.
  split.
  - unfold progress. rewrite (doneCount_aligned catalog), Hlen by assumption.
    simpl. now rewrite percent_rounds.
  - apply round_half_up_bounds; lia.
Qed.

(** X8. In a catalog of 1 to 39 steps with unique identities, the progress
    shown is an integer from 0 to 100. Marking a step done never lowers it:
    the number of completed steps goes up by one when the step was not
    done, and stays when it was. Marking such a step todo again brings back
    the number and the percentage there were. *)
Theorem progress_follows_status (catalog : list StepItem) (st : AppState)
  (now now' : string) (j : Z) (c : StepItem) :
  NoDup (identities catalog) ->
  aligned catalog (states st) ->
  (0 < List.length catalog < 40)%nat ->
  nth_Z catalog j = Some c ->
  exists st1 st2 p p1,
    setStatus now (id c) Done st = Normal st1
    /\ setStatus now' (id c) Todo st1 = Normal st2
    /\ shows_percent (states st) p
    /\ shows_percent (states st1) p1
    /\ p <= p1
    /\ (is_done (at_index (states st) j) = true ->
        count_done (states st1) = count_done (states st))
    /\ (is_done (at_index (states st) j) = false ->
        count_done (states st1) = S (count_done (states st))
        /\ count_done (states st2) = count_done (states st)
        /\ progress (states st2) = progress (states st)).
Proof.
  intros Hnd Hal Ht Hc.
  destruct (nth_Z_Some _ _ _ Hc) as [Hj Hn].
  destruct (aligned_nth _ _ Hal _ _ Hn) as (r & Hr & Hid).
  assert (at_index (states st) j = r) as Hat.
  { unfold at_index, nth_Z.
    destruct (j <? 0) eqn:Hneg; [apply Z.ltb_lt in Hneg; lia|]. now rewrite Hr. }
  set (l1 := map (updated now (id c) Done) (states st)).
  set (l2 := map (updated now' (id c) Todo) l1).
  assert (aligned catalog l1) as Hal1 by now apply aligned_updated.
  assert (aligned catalog l2) as Hal2 by now apply aligned_updated.
  pose proof (count_done_updated now Done catalog (states st) Hnd Hal _ _ _ Hn Hr)
    as Hcount1. fold l1 in Hcount1.
  assert (nth_error l1 (Z.to_nat j) = Some (updated now (id c) Done r)) as Hr1
    by (unfold l1; rewrite nth_error_map, Hr; reflexivity).
  pose proof (count_done_updated now' Todo catalog l1 Hnd Hal1 _ _ _ Hn Hr1)
    as Hcount2. fold l2 in Hcount2.
  rewrite (is_done_updated now (id c) Done r Hid) in Hcount2.
  simpl in Hcount1, Hcount2.
  exists (setStates l1 st), (setStates l2 (setStates l1 st)).
  exists (round_half_up (100 * Z.of_nat (count_done (states st)))
            (Z.of_nat (List.length catalog))).
  exists (round_half_up (100 * Z.of_nat (count_done l1))
            (Z.of_nat (List.length catalog))).
  split; [now apply (setStatus_aligned catalog)|].
  split; [now apply (setStatus_aligned catalog)|].
  split; [now apply shows_percent_aligned|].
  split; [now apply shows_percent_aligned|]. simpl.
  rewrite Hat. split; [|split].
  - apply round_half_up_mono; [|lia]. destruct (is_done r); simpl in Hcount1; lia.
  - intros Hdone. rewrite Hdone in Hcount1. simpl in Hcount1. lia.
  - intros Hdone. rewrite Hdone in Hcount1. simpl in Hcount1.
    assert (count_done l2 = count_done (states st)) as Hsame by lia.
    split; [lia|]. split; [assumption|].
    unfold progress.
    rewrite (doneCount_aligned catalog _ Hal2), (doneCount_aligned catalog _ Hal).
    now rewrite Hsame, (aligned_length _ _ Hal2), (aligned_length _ _ Hal).
Qed.

(** ** The audit of any status list *)

Lemma Array_map_Forall2 {A B : Type} (f : A -> completion B) (P : A -> B -> Prop) :
  (forall x y, f x = Normal y -> P x y) ->
  forall l ys, Array_map f l = Normal ys -> Forall2 P l ys.
Proof.
  intros HP. induction l as [|x rest IH]; simpl; intros ys H.
  - injection H as <-. constructor.
  - destruct (f x) as [y|e] eqn:Hx; simpl in H; [|discriminate].
    destruct (Array_map f rest) as [zs|e]; simpl in H; [|discriminate].
    injection H as <-. constructor; auto.
Qed.

Lemma findState_defined i : forall l,
  Forall (fun s => is_nullish s = false) l ->
  exists r, findState l i = Normal r
            /\ ((r = VUndef /\ forall s, In s l -> record_id s <> Some i)
                \/ (In r l /\ record_id r = Some i)).
Proof.
  unfold findState. induction 1 as [|s rest Hs _ IH]; simpl.
  - exists VUndef. split; [reflexivity|]. left. split; [reflexivity|]. intros s [].
  - assert (get s "id" = Normal (opt_get s "id")) as ->
      by (destruct s; try discriminate; reflexivity).
    simpl. destruct (strict_eq_string (opt_get s "id") i) eqn:Hk.
    + exists s. split; [reflexivity|]. right. split; [now left|].
      now apply strict_eq_record_id.
    + destruct IH as (r & -> & [[Hr Hnone]|[Hin Hid]]); exists r.
      * split; [reflexivity|]. left. split; [assumption|].
        intros s' [<-|Hs'] Hid; [|now apply (Hnone s')].
        apply strict_eq_record_id in Hid. congruence.
      * split; [reflexivity|]. right. split; [now right | assumption].
Qed.

(** X9. Whatever the status list holds, an audit that is built lists the
    catalog: its entries carry the identities, titles and categories of the
    catalog steps, one each and in catalog order, with the metadata and the
    instant it was given. A status record of no catalog step adds no entry. *)
Theorem exportAudit_lists_catalog (catalog : list StepItem) (now : string)
  (st : AppState) (audit : Audit) :
  exportAudit catalog now st = Normal audit ->
  map audit_id (audit_steps audit) = identities catalog
  /\ map audit_title (audit_steps audit) = map title catalog
  /\ map audit_category (audit_steps audit) = map category catalog
  /\ List.length (audit_steps audit) = List.length catalog
  /\ audit_meta audit = meta st
  /\ generatedAt audit = now.
Proof.
  unfold exportAudit.
  match goal with
  | |- bind (Array_map ?f catalog) _ = _ -> _ => set (entry := f)
  end.
  destruct (Array_map entry catalog) as [entries|e] eqn:Hmap; simpl; [|discriminate].
  intros H. injection H as <-. simpl.
  assert (Forall2 (fun c y => audit_id y = id c /\ audit_title y = title c
                              /\ audit_category y = category c)
                  catalog entries) as Hall.
  { apply (Array_map_Forall2 entry); [|assumption].
    intros c y. unfold entry.
    destruct (findState (states st) (id c)) as [r|e]; simpl; [|discriminate].
    intros Hy. injection Hy as <-. simpl. auto. }
  clear Hmap. unfold identities.
  repeat split;
    induction Hall as [|c y cs ys (Hi & Ht & Hc) _ IH]; simpl;
    try reflexivity; now rewrite ?Hi, ?Ht, ?Hc, IH.
Qed.

(** X10. On a status list without [null] the audit is always built. The
    entry of a step reports a record of that very step, and a step with no
    record at all is reported as todo with a [null] timestamp. *)
Theorem exportAudit_missing_records (catalog : list StepItem) (now : string)
  (st : AppState) :
  Forall (fun s => is_nullish s = false) (states st) ->
  exists audit,
    exportAudit catalog now st = Normal audit
    /\ Forall2 (fun c e =>
                  (e = pending_entry c
                   /\ forall r, In r (states st) -> record_id r <> Some (id c))
                  \/ (exists r, In r (states st) /\ record_id r = Some (id c)
                                /\ e = audit_entry c r))
               catalog (audit_steps audit).
Proof.
  intros Hdef.
  set (found := fun c => match findState (states st) (id c) with
                         | Normal r => r
                         | Throw _ => VUndef
                         end).
  exists {| audit_meta := meta st; generatedAt := now;
            audit_steps := map (fun c => audit_entry c (found c)) catalog |}.
  split.
  - unfold exportAudit.
    rewrite (Array_map_total _ (fun c => audit_entry c (found c))); [reflexivity|].
    apply Forall_forall. intros c _. unfold found.
    destruct (findState_defined (id c) (states st) Hdef) as (r & -> & _).
    reflexivity.
  - simpl. apply Forall2_map_r. intros c _. unfold found.
    destruct (findState_defined (id c) (states st) Hdef)
      as (r & -> & [[-> Hnone]|[Hin Hid]]).
    + left. split; [reflexivity | assumption].
    + right. exists r. auto.
Qed.

(** ** Queries *)

Lemma is_white_space_lower c : is_white_space (lower_unit c) = is_white_space c.
Proof. destruct c as [[] [] [] [] [] [] [] []]; reflexivity. Qed.

Lemma trimStart_lower s : trimStart (toLowerCase s) = toLowerCase (trimStart s).
Proof.
  induction s as [|c s IH]; simpl; [reflexivity|].
  rewrite is_white_space_lower. now destruct (is_white_space c).
Qed.

Lemma trimEnd_lower s : trimEnd (toLowerCase s) = toLowerCase (trimEnd s).
Proof.
  induction s as [|c s IH]; simpl; [reflexivity|].
  rewrite IH, is_white_space_lower.
  destruct (trimEnd s); simpl; [now destruct (is_white_space c) | reflexivity].
Qed.

Lemma trim_lower s : trim (toLowerCase s) = toLowerCase (trim s).
Proof. unfold trim. now rewrite trimStart_lower, trimEnd_lower. Qed.

Lemma trimEnd_blank s : blank s = true -> trimEnd s = "".
Proof.
  induction s as [|c s IH]; simpl; [reflexivity|].
  intros H. apply andb_prop in H. destruct H as [Hc Hs].
  now rewrite (IH Hs), Hc.
Qed.

Lemma trimStart_pad a s : blank a = true -> trimStart (a ++ s) = trimStart s.
Proof.
  induction a as [|c a IH]; simpl; [reflexivity|].
  intros H. apply andb_prop in H. destruct H as [-> Ha]. auto.
Qed.

Lemma trimEnd_pad b : blank b = true -> forall s, trimEnd (s ++ b) = trimEnd s.
Proof.
  intros Hb. induction s as [|c s IH]; simpl.
  - now apply trimEnd_blank.
  - now rewrite IH.
Qed.

Lemma trim_pad a q b :
  blank a = true -> blank b = true -> trim (a ++ q ++ b) = trim q.
Proof.
  intros Ha Hb. unfold trim. rewrite (trimStart_pad a _ Ha).
  induction q as [|c q IH]; simpl.
  - now rewrite (trimStart_blank b Hb).
  - destruct (is_white_space c); [assumption|].
    change (String c (q ++ b)) with (String c q ++ b)%string.
    now apply trimEnd_pad.
Qed.

(** X11. The filter reads a query without regard to the case of its
    letters or to white space around it: two queries that differ in these
    only give the same list. *)
Theorem filtered_ignores_case_and_padding (catalog : list StepItem)
  (q1 q2 a b : string) :
  toLowerCase q1 = toLowerCase q2 ->
  blank a = true ->
  blank b = true ->
  filtered catalog (a ++ q1 ++ b) = filtered catalog q2.
Proof.
  intros Hcase Ha Hb. rewrite !filtered_unfold.
  now rewrite (trim_pad a q1 b Ha Hb), <- !trim_lower, Hcase.
Qed.

Lemma append_assoc_string (a b c : string) : ((a ++ b) ++ c = a ++ b ++ c)%string.
Proof. induction a as [|x a IH]; simpl; [reflexivity | now rewrite IH]. Qed.

Lemma occurs_in_trans a b c : occurs_in a b -> occurs_in b c -> occurs_in a c.
Proof.
  intros (p & q & ->) (pre & post & ->).
  exists (pre ++ p)%string, (q ++ post)%string.
  now rewrite !append_assoc_string.
Qed.

Lemma filter_length_impl {A : Type} (p q : A -> bool) (l : list A) :
  (forall x, p x = true -> q x = true) ->
  (List.length (filter p l) <= List.length (filter q l))%nat.
Proof.
  intros Hpq. induction l as [|x rest IH]; simpl; [lia|].
  destruct (p x) eqn:Hp.
  - rewrite (Hpq x Hp). simpl. lia.
  - destruct (q x); simpl; lia.
Qed.

(** X12. Typing on narrows the list: when a query, as the filter reads it,
    occurs in a second one, every step the second finds the first finds
    too, so the list for the second is no longer. *)
Theorem filtered_narrows (catalog : list StepItem) (q q' : string) :
  occurs_in (normalized q) (normalized q') ->
  (forall f, In f (filtered catalog q') -> In f (filtered catalog q))
  /\ (List.length (filtered catalog q') <= List.length (filtered catalog q))%nat.
Proof.
  intros Hocc. rewrite !filtered_unfold. fold (normalized q) (normalized q').
  assert (forall s, matches (normalized q') s = true ->
                    matches (normalized q) s = true) as Himp.
  { intros s. rewrite !matches_occurs.
    intros [H|[H|H]]; [left | right; left | right; right];
      now apply (occurs_in_trans _ (normalized q')). }
  split.
  - intros f. rewrite !filter_In. intros [Hin Hm]. auto.
  - apply filter_length_impl. intros f. apply Himp.
Qed.

(** ** The name of the download *)

Lemma no_white_space_app a b :
  no_white_space (a ++ b) = no_white_space a && no_white_space b.
Proof.
  induction a as [|c a IH]; simpl; [reflexivity|].
  now rewrite IH, andb_assoc.
Qed.

Lemma replace_white_space_clean s : forall in_run,
  no_white_space (replace_white_space "-" in_run s) = true.
Proof.
  induction s as [|c s IH]; intros in_run; simpl; [reflexivity|].
  destruct (is_white_space c) eqn:Hc.
  - destruct in_run; [apply IH|]. simpl. apply IH.
  - simpl. rewrite Hc. simpl. apply IH.
Qed.

Lemma replace_white_space_none s : forall r in_run,
  no_white_space s = true -> replace_white_space r in_run s = s.
Proof.
  induction s as [|c s IH]; intros r in_run; simpl; [reflexivity|].
  intros H. apply andb_prop in H. destruct H as [Hc Hs].
  apply negb_true_iff in Hc. rewrite Hc. now rewrite IH.
Qed.

Lemma replace_white_space_length s : forall in_run,
  (String.length (replace_white_space "-" in_run s) <= String.length s)%nat.
Proof.
  induction s as [|c s IH]; intros in_run; simpl; [lia|].
  destruct (is_white_space c).
  - destruct in_run; simpl.
    + specialize (IH true). lia.
    + specialize (IH true). lia.
  - simpl. specialize (IH false). lia.
Qed.

Lemma length_append (a b : string) :
  String.length (a ++ b) = (String.length a + String.length b)%nat.
Proof. induction a as [|c a IH]; simpl; [reflexivity | now rewrite IH]. Qed.

(** X13. The name of the downloaded audit has no white space in it and is
    at most 20 characters longer than the incident name. An incident name
    without white space is put into it as it is, whatever other characters
    it has; and a name that went through the replacement once is left alone
    by a second pass. *)
Theorem download_name_clean (m : IncidentMeta) :
  no_white_space (download_name m) = true
  /\ (String.length (download_name m) <= String.length (name m) + 20)%nat
  /\ (no_white_space (name m) = true ->
      download_name m = ("incident-audit-" ++ name m ++ ".json")%string)
  /\ replace_white_space "-" false (replace_white_space "-" false (name m))
     = replace_white_space "-" false (name m).
Proof.
  unfold download_name. repeat split.
  - rewrite !no_white_space_app, replace_white_space_clean. reflexivity.
  - rewrite !length_append.
    pose proof (replace_white_space_length (name m) false). simpl. lia.
  - intros H. now rewrite replace_white_space_none.
  - apply replace_white_space_none, replace_white_space_clean.
Qed.

(** ** The page in use *)

Lemma session_reachable catalog stored st :
  session catalog stored st -> reachable catalog stored st.
Proof.
  induction 1 as [|st now ev st' _ IH _ Hev|st _ IH].
  - apply reach_init.
  - now apply (reach_step catalog stored st now ev).
  - now apply reach_restart.
Qed.

Lemma reconcile_range catalog st :
  0 <= currentIndex st < Z.of_nat (List.length catalog) ->
  0 <= currentIndex (reconcile catalog st) < Z.of_nat (List.length catalog).
Proof.
  intros Hcur.
  destruct (reconcile_cases catalog st)
    as [[_ ->]|[(_ & _ & ->)|(_ & f & rest & Hf & ->)]]; try assumption.
  simpl.
  assert (nth_Z catalog (idx f) = Some (step f)) as Hpos
    by (apply (filtered_position catalog (search st)); rewrite Hf; simpl; auto).
  now apply nth_Z_Some in Hpos.
Qed.

Lemma current_in_range catalog st :
  0 <= currentIndex st < Z.of_nat (List.length catalog) ->
  exists c, current catalog st = Some c.
Proof. intros H. now apply nth_Z_in_range. Qed.

(** With the cursor on a step, a handler returns, and leaves the cursor on
    a step when the event is one the page offers. *)
Lemma handle_in_range catalog now ev st :
  aligned catalog (states st) ->
  0 <= currentIndex st < Z.of_nat (List.length catalog) ->
  exists st',
    handle catalog now ev st = Normal st'
    /\ (offered catalog st ev = true ->
        0 <= currentIndex st' < Z.of_nat (List.length catalog)).
Proof.
  intros Hal Hcur.
  destruct (current_in_range catalog st Hcur) as [c Hc].
  destruct ev as [q|m|i|checked| | | |]; simpl;
    try (eexists; split; [reflexivity|]; simpl; intros _; lia).
  - eexists. split; [reflexivity|]. simpl. unfold listed.
    destruct (nth_Z catalog i) as [s|] eqn:Hs; [|discriminate].
    intros _. now apply nth_Z_Some in Hs.
  - unfold onMarkDone, current_id. rewrite Hc. simpl.
    rewrite (setStatus_aligned catalog) by assumption. simpl.
    destruct (Boolean checked).
    + match goal with
      | |- context [findIndex ?p catalog] =>
          destruct (findIndex_from_spec p catalog 0) as [[Hr _]|(Hr & _)];
          fold (findIndex p catalog) in Hr
      end.
      * rewrite Hr. simpl. eexists. split; [reflexivity|]. simpl. intros _. lia.
      * match goal with
        | |- context [?r >? -1] =>
            assert ((r >? -1) = true) as -> by (apply Z.gtb_lt; lia)
        end.
        eexists. split; [reflexivity|]. simpl. intros _. lia.
    + eexists. split; [reflexivity|]. simpl. intros _. lia.
  - unfold onSkip, current_id. rewrite Hc. simpl.
    rewrite (setStatus_aligned catalog) by assumption. simpl.
    eexists. split; [reflexivity|]. simpl. intros _. lia.
Qed.

Lemma session_range catalog stored st :
  catalog <> [] -> session catalog stored st ->
  0 <= currentIndex st < Z.of_nat (List.length catalog).
Proof.
  intros Hne Hs.
  assert (0 < Z.of_nat (List.length catalog)) as Hlen
    by (destruct catalog; [contradiction | simpl; lia]).
  induction Hs as [|st now ev st' Hs IH Hoff Hev|st _ _];
    apply reconcile_range; simpl; try lia.
  pose proof (reachable_aligned _ _ _ (session_reachable _ _ _ Hs)) as Hal.
  destruct (handle_in_range catalog now ev st Hal IH) as (st1 & Hst1 & Hrange).
  rewrite Hst1 in Hev. injection Hev as <-. now apply Hrange.
Qed.

(** X14. While the events come from the controls the page shows, and the
    catalog is not empty, the cursor is always on a step of the catalog,
    the status record of that step is always found, [progress] is always
    computed, and no handler throws, whatever was stored at the start. *)
Theorem session_never_throws (catalog : list StepItem) (stored : Blob)
  (st : AppState) :
  catalog <> [] ->
  session catalog stored st ->
  0 <= currentIndex st < Z.of_nat (List.length catalog)
  /\ (exists c r, current catalog st = Some c
                  /\ currentState catalog st = Normal r
                  /\ record_id r = Some (id c))
  /\ (exists n, progress (states st) = Normal n)
  /\ (forall now ev, exists st', handle catalog now ev st = Normal st').
Proof.
  intros Hne Hs.
  pose proof (session_range _ _ _ Hne Hs) as Hcur.
  pose proof (reachable_aligned _ _ _ (session_reachable _ _ _ Hs)) as Hal.
  split; [assumption|]. split; [|split].
  - destruct (current_in_range catalog st Hcur) as [c Hc].
    assert (Forall (fun s => is_nullish s = false) (states st)) as Hdef.
    { eapply Forall_impl; [|exact (aligned_records _ _ Hal)].
      intros s [j Hj]. now apply (record_is_object s j). }
    destruct (findState_defined (id c) (states st) Hdef)
      as (r & Hfind & [[_ Hnone]|[_ Hid]]).
    + exfalso. destruct (nth_Z_Some _ _ _ Hc) as [_ Hn].
      destruct (aligned_nth _ _ Hal _ _ Hn) as (s & Hs' & Hid).
      apply (Hnone s); [eapply nth_error_In; eauto | assumption].
    + exists c, r. unfold currentState, current_id. rewrite Hc. simpl. auto.
  - unfold progress. rewrite (doneCount_aligned catalog) by assumption.
    simpl. eauto.
  - intros now ev.
    destruct (handle_in_range catalog now ev st Hal Hcur) as (st' & Hst' & _).
    eauto.
Qed.

(** X15. Browsing changes no status: after any run of searches, metadata
    edits, step selections, Back and Next, every status record is as it
    was; a run without metadata edits leaves the metadata, and a run
    without searches leaves the search text. *)
Theorem browsing_keeps_statuses (catalog : list StepItem) (now : string)
  (evs : list Event) (st : AppState) :
  forallb browses evs = true ->
  exists st',
    run catalog now evs st = Normal st'
    /\ states st' = states st
    /\ (forallb (fun ev => match ev with SetMeta _ => false | _ => true end) evs = true ->
        meta st' = meta st)
    /\ (forallb (fun ev => match ev with SetSearch _ => false | _ => true end) evs = true ->
        search st' = search st).
Proof.
  revert st. induction evs as [|ev rest IH]; intros st Hb; simpl.
  - exists st. auto.
  - simpl in Hb. apply andb_prop in Hb. destruct Hb as [Hev Hrest].
    assert (exists st1, handle catalog now ev st = Normal st1
                        /\ states st1 = states st
                        /\ ((match ev with SetMeta _ => false | _ => true end) = true ->
                            meta st1 = meta st)
                        /\ ((match ev with SetSearch _ => false | _ => true end) = true ->
                            search st1 = search st)) as (st1 & -> & Hs1 & Hm1 & Hq1).
    { destruct ev; try discriminate; simpl; eexists;
        (split; [reflexivity|]); simpl; repeat split; auto; discriminate. }
    simpl.
    destruct (IH (reconcile catalog st1) Hrest) as (st' & Hrun & Hs & Hm & Hq).
    destruct (reconcile_frame catalog st1) as (Hfq & Hfm & Hfs).
    exists st'. split; [assumption|]. split; [congruence|]. split.
    + intros H. apply andb_prop in H. destruct H as [H1 H2].
      rewrite (Hm H2), Hfm. auto.
    + intros H. apply andb_prop in H. destruct H as [H1 H2].
      rewrite (Hq H2), Hfq. auto.
Qed.

(** ** Working through the list *)

(** One tick on step [k] of a list walked up to [k]. *)
Lemma tick_walks catalog now k st :
  NoDup (identities catalog) ->
  (k < List.length catalog)%nat ->
  walked catalog now k st ->
  exists st',
    onMarkDone catalog now (CheckedBool true) st = Normal st'
    /\ walked catalog now (S k) (reconcile catalog st').
Proof.
  intros Hnd Hk (Hblank & Hal & Hcur & Hdone & Htodo).
  assert (currentIndex st = Z.of_nat k) as Hcur' by lia.
  destruct (nth_Z_in_range catalog (currentIndex st) ltac:(lia)) as [c Hc].
  pose proof (record_at_cursor _ _ Hal _ _ Hc) as Hrec.
  destruct (updated_same now (id c) Done _ Hrec) as [Hs Hd].
  set (l' := map (updated now (id c) Done) (states st)).
  assert (forall j, j <> currentIndex st -> at_index l' j = at_index (states st) j)
    as Hother by (intros; now apply (status_elsewhere catalog)).
  set (p := fun (_ : StepItem) (i : Z) =>
              (currentIndex st <? i) && negb (is_done (at_index (states st) i))).
  assert (forall x j, currentIndex st < j < Z.of_nat (List.length catalog) ->
                      p x j = true) as Hp.
  { intros x j Hj. unfold p.
    assert ((currentIndex st <? j) = true) as -> by (apply Z.ltb_lt; lia).
    assert (is_done (at_index (states st) j) = false) as ->; [|reflexivity].
    destruct (is_done (at_index (states st) j)) eqn:Hd'; [|reflexivity].
    apply is_done_status in Hd'.
    assert (status_at (states st) j = VStr "todo") as Ht by (apply Htodo; lia).
    unfold status_at in Ht. congruence. }
  assert (exists next,
            onMarkDone catalog now (CheckedBool true) st
            = Normal (setCurrentIndex next (setStates l' st))
            /\ next = Z.min (Z.of_nat (S k)) (Z.of_nat (List.length catalog) - 1))
    as (next & Hrun & Hnext).
  { assert (current catalog st = Some c) as Hc0 by exact Hc.
    unfold onMarkDone, current_id. rewrite Hc0. simpl.
    rewrite (setStatus_aligned catalog) by assumption. simpl. fold p. fold l'.
    destruct (findIndex_from_spec p catalog 0) as [[Hr Hall]|(Hr & (x & Hx & Hpr) & Hall)];
      fold (findIndex p catalog) in *.
    - rewrite Hr. simpl. exists (currentIndex st).
      split; [now rewrite setCurrentIndex_same|].
      assert (~ (Z.of_nat (S k) < Z.of_nat (List.length catalog))); [|lia].
      intros Hlt.
      destruct (nth_Z_in_range catalog (Z.of_nat (S k)) ltac:(lia)) as [y Hy].
      apply nth_Z_Some in Hy. destruct Hy as [_ Hy].
      specialize (Hall _ _ Hy). rewrite Z2Nat.id in Hall by lia. simpl in Hall.
      rewrite Hp in Hall by lia. discriminate.
    - assert ((findIndex p catalog >? -1) = true) as -> by (apply Z.gtb_lt; lia).
      exists (findIndex p catalog). split; [reflexivity|].
      assert (currentIndex st < findIndex p catalog) as Hlt.
      { unfold p in Hpr. apply andb_prop in Hpr. destruct Hpr as [Hpr _].
        now apply Z.ltb_lt in Hpr. }
      assert (~ (Z.of_nat (S k) < findIndex p catalog)); [|lia].
      intros Hgap.
      destruct (nth_Z_in_range catalog (Z.of_nat (S k)) ltac:(lia)) as [y Hy].
      apply nth_Z_Some in Hy. destruct Hy as [_ Hy].
      specialize (Hall (Z.to_nat (Z.of_nat (S k))) y).
      rewrite Z2Nat.id in Hall by lia. simpl in Hall.
      specialize (Hall Hgap Hy). rewrite Hp in Hall by lia. discriminate. }
  exists (setCurrentIndex next (setStates l' st)). split; [assumption|].
  destruct (nth_Z_in_range catalog next ltac:(lia)) as [c' Hc'].
  rewrite (reconcile_blank catalog _ c') by assumption.
  unfold walked. simpl.
  split; [assumption|]. split; [now apply aligned_updated|]. split; [assumption|].
  unfold status_at, doneAt_at in *. split.
  - intros j Hj. destruct (Z.eq_dec j (currentIndex st)) as [->|Hne].
    + unfold l'. rewrite at_index_updated. auto.
    + rewrite Hother by assumption. apply Hdone. lia.
  - intros j Hj. rewrite Hother by lia. apply Htodo. lia.
Qed.

Lemma ticks_walk catalog now :
  NoDup (identities catalog) ->
  forall n k st,
    (k + n <= List.length catalog)%nat ->
    walked catalog now k st ->
    exists st',
      run catalog now (repeat (MarkDone (CheckedBool true)) n) st = Normal st'
      /\ walked catalog now (k + n) st'.
Proof.
  intros Hnd. induction n as [|n IH]; intros k st Hk Hw; simpl.
  - exists st. rewrite Nat.add_0_r. auto.
  - destruct (tick_walks catalog now k st Hnd ltac:(lia) Hw) as (st1 & -> & Hw1).
    simpl. destruct (IH (S k) _ ltac:(lia) Hw1) as (st' & Hrun & Hw').
    exists st'. split; [assumption|].
    now replace (k + S n)%nat with (S k + n)%nat by lia.
Qed.

Lemma walked_count catalog now st :
  walked catalog now (List.length catalog) st ->
  count_done (states st) = List.length catalog.
Proof.
  intros (_ & Hal & _ & Hdone & _).
  rewrite <- (aligned_length _ _ Hal). unfold count_done. f_equal.
  apply forallb_filter_id. apply forallb_forall. intros r Hr.
  destruct (In_nth_error _ _ Hr) as [n Hn].
  assert (n < List.length (states st))%nat as Hlt
    by (apply nth_error_Some; congruence).
  rewrite (aligned_length _ _ Hal) in Hlt.
  destruct (Hdone (Z.of_nat n) ltac:(lia)) as [Hs _].
  unfold status_at, at_index, nth_Z in Hs.
  destruct (Z.of_nat n <? 0) eqn:Hneg; [apply Z.ltb_lt in Hneg; lia|].
  rewrite Nat2Z.id, Hn in Hs. now apply is_done_status.
Qed.

(** X16. From a first run with nothing stored, ticking Done as many times
    as the catalog has steps, and nothing else, completes the runbook: each
    tick moves the cursor to the next step, every step ends done and
    stamped, the cursor ends on the last step, and for a catalog of fewer
    than 40 steps the progress shown is 100. *)
Theorem ticking_completes (catalog : list StepItem) (now : string) :
  NoDup (identities catalog) ->
  catalog <> [] ->
  exists st',
    run catalog now (repeat (MarkDone (CheckedBool true)) (List.length catalog))
        (initialState catalog NoItem) = Normal st'
    /\ Forall (fun r => status_of r = VStr "done" /\ doneAt_of r = VStr now)
              (states st')
    /\ currentIndex st' = Z.of_nat (List.length catalog) - 1
    /\ count_done (states st') = List.length catalog
    /\ ((List.length catalog < 40)%nat -> progress (states st') = Normal (of_Z 100)).
Proof.
  intros Hnd Hne.
  assert (0 < List.length catalog)%nat as Hlen
    by (destruct catalog; [contradiction | simpl; lia]).
  assert (walked catalog now 0 (initialState catalog NoItem)) as Hstart.
  { unfold walked. split; [reflexivity|].
    split; [apply loadState_aligned|].
    split; [simpl; lia|]. split; [intros j Hj; lia|].
    change (states (initialState catalog NoItem))
      with (map todoState (identities catalog)).
    intros j Hj. unfold status_at, at_index.
    destruct (nth_Z_in_range (map todoState (identities catalog)) j) as [r Hr].
    { unfold identities. rewrite !length_map. lia. }
    rewrite Hr. apply nth_Z_Some in Hr. destruct Hr as [_ Hr].
    apply nth_error_In in Hr. in_map_inv Hr i. reflexivity. }
  destruct (ticks_walk catalog now Hnd (List.length catalog) 0 _ ltac:(lia) Hstart)
    as (st' & Hrun & Hw).
  simpl in Hw.
  pose proof (walked_count _ _ _ Hw) as Hcount.
  destruct Hw as (_ & Hal & Hcur & Hdone & _).
  exists st'. split; [assumption|]. split; [|split; [lia|split; [assumption|]]].
  - apply Forall_forall. intros r Hr.
    destruct (In_nth_error _ _ Hr) as [n Hn].
    assert (n < List.length (states st'))%nat as Hlt
      by (apply nth_error_Some; congruence).
    rewrite (aligned_length _ _ Hal) in Hlt.
    destruct (Hdone (Z.of_nat n) ltac:(lia)) as [Hs Hd].
    unfold status_at, doneAt_at, at_index, nth_Z in Hs, Hd.
    destruct (Z.of_nat n <? 0) eqn:Hneg; [apply Z.ltb_lt in Hneg; lia|].
    rewrite Nat2Z.id, Hn in Hs, Hd. auto.
  - intros H40. unfold progress.
    rewrite (doneCount_aligned catalog), (aligned_length _ _ Hal), Hcount by assumption.
    simpl. rewrite percent_rounds by lia. do 2 f_equal.
    unfold round_half_up.
    replace (2 * (100 * Z.of_nat (List.length catalog)) + Z.of_nat (List.length catalog))
      with (Z.of_nat (List.length catalog)
            + 100 * (2 * Z.of_nat (List.length catalog))) by lia.
    rewrite Z.div_add by lia. rewrite Z.div_small by lia. reflexivity.
Qed.

(** ** Instances of the further properties *)


Lemma stored_duplicates_last_wins_witness :
  let before := [todoState "A"] in
  let after := [todoState "B"] in
  Forall (fun s => is_nullish s = false) (before ++ doneState "A" instant :: after)
  /\ record_id (doneState "A" instant) = Some "A"
  /\ (forall s, In s after -> record_id s <> Some "A")
  /\ nth_error ["A"; "B"] 0 = Some "A"
  /\ nth_error (loadState (Item (Normal (VArr (before ++ doneState "A" instant :: after))))
                          ["A"; "B"]) 0
     = Some (doneState "A" instant).
Proof.
  intros before after.
  assert (Forall (fun s => is_nullish s = false)
                 (before ++ doneState "A" instant :: after)) as Hdef
    by (repeat constructor).
  assert (forall s, In s after -> record_id s <> Some "A") as Hafter
    by (intros s [<-|[]]; discriminate).
  split; [exact Hdef|]. split; [reflexivity|]. split; [exact Hafter|].
  split; [reflexivity|].
  exact (stored_duplicates_last_wins before after (doneState "A" instant)
           ["A"; "B"] "A" 0 Hdef eq_refl Hafter eq_refl).
Defined.

Lemma stored_null_discards_all_witness :
  let parsed := VArr [doneState "A" instant; VNull] in
  (forall elems, parsed = VArr elems -> In VNull elems)
  /\ loadState (Item (Normal parsed)) ["A"; "B"] = [todoState "A"; todoState "B"].
Proof.
  intros parsed.
  assert (forall elems, parsed = VArr elems -> In VNull elems) as H
    by (intros elems Heq; injection Heq as <-; simpl; auto).
  split; [exact H|].
  exact (stored_null_discards_all parsed ["A"; "B"] H).
Defined.

Lemma save_load_round_trip_witness :
  NoDup (identities three_steps)
  /\ aligned three_steps (states last_completed)
  /\ status_at (loadState (saveState (states last_completed))
                          (identities three_steps)) 2 = VStr "done".
Proof.
  split; [exact three_steps_unique|]. split; [reflexivity|].
  destruct (save_load_round_trip three_steps (states last_completed)
              three_steps_unique eq_refl) as (_ & Hstatus & _).
  apply Hstatus. reflexivity.
Defined.

Lemma reset_then_restart_witness :
  NoDup (identities three_steps)
  /\ initialState three_steps (saveState (states (resetAll three_steps last_completed)))
     = initialState three_steps NoItem.
Proof.
  split; [exact three_steps_unique|].
  exact (reset_then_restart three_steps last_completed three_steps_unique).
Defined.

Lemma setStatus_last_write_wins_witness :
  aligned STEPS (states first_run)
  /\ (st1 <- setStatus instant "rotate-keys" Done first_run ;;
      setStatus instant "rotate-keys" Skipped st1)
     = setStatus instant "rotate-keys" Skipped first_run.
Proof.
  split; [reflexivity|].
  exact (proj1 (setStatus_last_write_wins STEPS first_run instant instant
                  "rotate-keys" "rotate-keys" Done Skipped eq_refl)).
Defined.

Lemma progress_follows_status_witness :
  NoDup (identities three_steps)
  /\ aligned three_steps (states last_completed)
  /\ (0 < List.length three_steps < 40)%nat
  /\ nth_Z three_steps 0 = Some (plain_step "A")
  /\ exists st1 p p1,
       setStatus instant "A" Done last_completed = Normal st1
       /\ shows_percent (states last_completed) p
       /\ shows_percent (states st1) p1
       /\ p <= p1.
Proof.
  assert (0 < List.length three_steps < 40)%nat as Hlen by (simpl; lia).
  split; [exact three_steps_unique|]. split; [reflexivity|].
  split; [exact Hlen|]. split; [reflexivity|].
  destruct (progress_follows_status three_steps last_completed instant instant 0
              (plain_step "A") three_steps_unique eq_refl Hlen eq_refl)
    as (st1 & st2 & p & p1 & H1 & _ & Hp & Hp1 & Hle & _).
  exists st1, p, p1. auto.
Defined.

Lemma exportAudit_lists_catalog_witness :
  exists audit,
    exportAudit STEPS instant first_run = Normal audit
    /\ map audit_id (audit_steps audit) = identities STEPS.
Proof.
  destruct (exportAudit STEPS instant first_run) as [audit|e] eqn:Hrun;
    [|vm_compute in Hrun; discriminate].
  exists audit. split; [reflexivity|].
  exact (proj1 (exportAudit_lists_catalog STEPS instant first_run audit Hrun)).
Defined.

Lemma exportAudit_missing_records_witness :
  let st := setStates [doneState "B" instant] last_completed in
  Forall (fun s => is_nullish s = false) (states st)
  /\ exists audit, exportAudit three_steps instant st = Normal audit.
Proof.
  intros st.
  assert (Forall (fun s => is_nullish s = false) (states st)) as Hdef
    by (repeat constructor).
  split; [exact Hdef|].
  destruct (exportAudit_missing_records three_steps instant st Hdef)
    as (audit & Hrun & _).
  exists audit. exact Hrun.
Defined.

Lemma filtered_ignores_case_and_padding_witness :
  toLowerCase "IAM" = toLowerCase "iam"
  /\ blank "  " = true
  /\ blank " " = true
  /\ filtered STEPS ("  " ++ "IAM" ++ " ") = filtered STEPS "iam".
Proof.
  split; [reflexivity|]. split; [reflexivity|]. split; [reflexivity|].
  exact (filtered_ignores_case_and_padding STEPS "IAM" "iam" "  " " "
           eq_refl eq_refl eq_refl).
Defined.

Lemma filtered_narrows_witness :
  occurs_in (normalized "tri") (normalized "Triage ")
  /\ (List.length (filtered STEPS "Triage ") <= List.length (filtered STEPS "tri"))%nat.
Proof.
  assert (occurs_in (normalized "tri") (normalized "Triage ")) as H
    by (exists "", "age"; reflexivity).
  split; [exact H|].
  exact (proj2 (filtered_narrows STEPS "tri" "Triage " H)).
Defined.

Lemma session_never_throws_witness :
  STEPS <> []
  /\ session STEPS stray_timestamp (reconcile STEPS (initialState STEPS stray_timestamp))
  /\ exists st',
       handle STEPS instant Skip (reconcile STEPS (initialState STEPS stray_timestamp))
       = Normal st'.
Proof.
  assert (STEPS <> []) as Hne by discriminate.
  split; [exact Hne|]. split; [apply session_init|].
  destruct (session_never_throws STEPS stray_timestamp _ Hne
              (session_init STEPS stray_timestamp)) as (_ & _ & _ & Hev).
  exact (Hev instant Skip).
Defined.

Lemma browsing_keeps_statuses_witness :
  forallb browses [Next; SetSearch "iam"; Back] = true
  /\ exists st',
       run STEPS instant [Next; SetSearch "iam"; Back] first_run = Normal st'
       /\ states st' = states first_run.
Proof.
  split; [reflexivity|].
  destruct (browsing_keeps_statuses STEPS instant [Next; SetSearch "iam"; Back]
              first_run eq_refl) as (st' & Hrun & Hs & _).
  exists st'. auto.
Defined.

Lemma ticking_completes_witness :
  NoDup (identities STEPS)
  /\ STEPS <> []
  /\ exists st',
       run STEPS instant (repeat (MarkDone (CheckedBool true)) (List.length STEPS))
           (initialState STEPS NoItem) = Normal st'
       /\ progress (states st') = Normal (of_Z 100).
Proof.
  assert (STEPS <> []) as Hne by discriminate.
  split; [exact STEPS_unique|]. split; [exact Hne|].
  destruct (ticking_completes STEPS instant STEPS_unique Hne)
    as (st' & Hrun & _ & _ & _ & Hp).
  exists st'. split; [exact Hrun|]. apply Hp. simpl. lia.
Defined.
